(** * X25519 scalar multiplication: a shallow embedding of [js/curve.js]

    The curve operations of the illustrated X25519 implementation are
    transcribed as functions over [Z] (JavaScript [BigInt] is an
    arbitrary-precision two's-complement integer, which is what [Z] with
    [Z.land], [Z.shiftr] and [Z.lxor] gives).  The field arithmetic lives in
    the sibling module [field.js]; it is captured here as an interface
    ([field.ops]) together with the instance over GF(2^255 - 19) that the
    design document prescribes.

    Layout: definitions first (field interface, curve operations, the
    instrumented ladder, the ladder as the design document words it, the
    primality-certificate checker), then the proofs. *)

From Stdlib Require Import ZArith Lia List Bool Znumtheory Zpow_facts.
From Stdlib Require Import Zcong Zmod Morphisms Setoid.
Import ListNotations.
Local Open Scope Z_scope.

(* ================================================================== *)
(** * Field collaborator ([import * as field from './field.js']) *)
(* ================================================================== *)

Module field.

(** The three operations [curve.js] consumes.  [inverseOf] may throw;
    a thrown exception is [None]. *)
Class ops : Type := {
  reduce : Z -> Z;
  square : Z -> Z;
  inverseOf : Z -> option Z
}.

(** The field prime. *)
Definition p : Z := 2 ^ 255 - 19.

(** Modelled from the spec: [field.js] itself.  The design document fixes
    its contract: [reduce v] is the canonical representative of [v] in
    [[0, p)], also for negative [v]; [square v] is [reduce (v * v)];
    [inverseOf v] is the multiplicative inverse of [v] modulo [p] and
    fails when [v] is congruent to 0. *)
#[global] Instance Fp : ops := {|
  reduce v := v mod p;
  square v := (v * v) mod p;
  inverseOf v := if v mod p =? 0 then None else Some (Z.invmod v p)
|}.

End field.

(* ================================================================== *)
(** * Loops *)
(* ================================================================== *)

Section Loops.
Context {St : Type}.

(** [for (let t = hi; t >= 0n; t--) { s = body(t, s) }], read literally:
    the loop variable is an integer, the guard is re-tested before every
    pass, and [fuel] bounds the number of passes. *)
Fixpoint for_down_fuel (fuel : nat) (t : Z) (body : Z -> St -> St) (s : St)
  : option St :=
  if t >=? 0 then
    match fuel with
    | O => None
    | S fuel' => for_down_fuel fuel' (t - 1) body (body t s)
    end
  else Some s.

(** The same loop with [k] passes left: the next pass has [t = k - 1],
    and the guard fails once [k] reaches 0. *)
Fixpoint countdown (k : nat) (body : Z -> St -> St) (s : St) : St :=
  match k with
  | O => s
  | S k' => countdown k' body (body (Z.of_nat k') s)
  end.

Definition for_down (hi : Z) (body : Z -> St -> St) (s : St) : St :=
  countdown (Z.to_nat (hi + 1)) body s.

(** Instrumentation: the body also appends the loop index to a log. *)
Definition traced (body : Z -> St -> St) (t : Z) (c : St * list Z)
  : St * list Z :=
  (body t (fst c), snd c ++ [t]).

End Loops.

(* ================================================================== *)
(** * Curve operations ([js/curve.js]) *)
(* ================================================================== *)

(** [{ x: ..., z: ... }] *)
Record ratio : Type := mkRatio { x : Z; z : Z }.

(** The mutable locals of [pointMult]. *)
Record ladder : Type := mkLadder {
  x_2 : Z; z_2 : Z; x_3 : Z; z_3 : Z; swap : Z
}.

Definition curveA : Z := 486662.
Definition basePointX : Z := 9.

Definition doubleA24 : Z := (curveA + 2) / 4.
Definition multA24 : Z := (curveA - 2) / 4.

(** [!!v] on a number. *)
Definition truthy (v : Z) : bool := negb (v =? 0).

(** [k_t !== 0n ? 1 : 0] *)
Definition flag (k_t : Z) : Z := if negb (k_t =? 0) then 1 else 0.

Definition cswap (swap : bool) (a b : Z) : Z * Z :=
  if swap then (b, a) else (a, b).

Section Curve.
Context {F : field.ops}.

Definition X (x z : Z) : option Z :=
  match field.inverseOf z with
  | Some i => Some (field.reduce (x * i))
  | None => None
  end.

Definition pointDouble (x z : Z) : ratio :=
  let x2_1 := (x + z) * (x + z) in
  let x2_2 := (x - z) * (x - z) in
  let x2 := field.reduce (x2_1 * x2_2) in
  let z2_1 := field.reduce (4 * x * z) in
  let z2_2 := field.reduce (x - z) * field.reduce (x - z) in
  let z2_3 := doubleA24 * z2_1 in
  let z2_23 := z2_2 + z2_3 in
  let z2 := z2_1 * z2_23 in
  mkRatio (field.reduce x2) (field.reduce z2).

Definition pointAdd1 (x z prevX prevZ : Z) : ratio :=
  let '(baseX, baseZ) := (basePointX, 1) in
  let xa := field.reduce (x - z) * (baseX + baseZ) in
  let xb := field.reduce ((x + z) * (baseX - baseZ)) in
  let xc := field.reduce (field.square (xa + xb)) in
  let x_nplus1 := prevZ * xc in
  let zc := field.reduce (field.square (xa - xb)) in
  let z_nplus1 := prevX * zc in
  mkRatio (field.reduce x_nplus1) (field.reduce z_nplus1).

(** One pass of the [for] loop of [pointMult], at loop index [t]. *)
Definition ladder_body (x_1 n t : Z) (s : ladder) : ladder :=
  let k_t := Z.land (Z.shiftr n t) 1 in
  let swap := Z.lxor (swap s) (flag k_t) in
  let '(x_2, x_3) := cswap (truthy swap) (x_2 s) (x_3 s) in
  let '(z_2, z_3) := cswap (truthy swap) (z_2 s) (z_3 s) in
  let swap := flag k_t in
  let A := x_2 + z_2 in
  let AA := A * A in
  let B := x_2 - z_2 in
  let BB := B * B in
  let E := AA - BB in
  let C := x_3 + z_3 in
  let D := x_3 - z_3 in
  let DA := D * A in
  let CB := C * B in
  let x_3 := field.reduce ((DA + CB) * (DA + CB)) in
  let z_3 := field.reduce (x_1 * (DA - CB) * (DA - CB)) in
  let x_2 := field.reduce (AA * BB) in
  let z_2 := field.reduce (E * (AA + multA24 * E)) in
  mkLadder x_2 z_2 x_3 z_3 swap.

(** The arithmetic of one pass once the accumulators have been exchanged
    or not: [(a, b)] is the pair that ends up in [(x_2, z_2)] before the
    step, [(c, d)] the one in [(x_3, z_3)], and [k] the new [swap]. *)
Definition combined_step (x_1 a b c d k : Z) : ladder :=
  let A := a + b in
  let AA := A * A in
  let B := a - b in
  let BB := B * B in
  let E := AA - BB in
  let C := c + d in
  let D := c - d in
  let DA := D * A in
  let CB := C * B in
  mkLadder (field.reduce (AA * BB))
           (field.reduce (E * (AA + multA24 * E)))
           (field.reduce ((DA + CB) * (DA + CB)))
           (field.reduce (x_1 * (DA - CB) * (DA - CB)))
           k.

(** The doubling half of the combined step: what a pass leaves in
    [(x_2, z_2)] when [(a, b)] is the pair it found there. *)
Definition ladder_double (a b : Z) : ratio :=
  mkRatio (x_2 (combined_step 0 a b 0 0 0)) (z_2 (combined_step 0 a b 0 0 0)).

(** The locals before the loop. *)
Definition ladder_init (X : Z) : ladder := mkLadder 1 0 X 1 0.

(** The locals when the loop exits. *)
Definition ladder_run (X n : Z) : ladder :=
  for_down 255 (ladder_body X n) (ladder_init X).

(** The two destructuring assignments after the loop and the [return]. *)
Definition ladder_finish (s : ladder) : ratio :=
  let x_2 := fst (cswap (truthy (swap s)) (x_2 s) (x_3 s)) in
  let z_2 := fst (cswap (truthy (swap s)) (z_2 s) (z_3 s)) in
  mkRatio x_2 z_2.

Definition pointMult (X n : Z) : ratio := ladder_finish (ladder_run X n).

(** Affine recovery of a returned ratio: [X(r.x, r.z)]. *)
Definition affine (r : ratio) : option Z := X (x r) (z r).

(** The loop of [pointMult] with its body instrumented: the list of loop
    indices at which the combined step ran, in execution order. *)
Definition ladder_run_traced (X n : Z) : ladder * list Z :=
  for_down 255 (traced (ladder_body X n)) (ladder_init X, []).

Definition ladder_trace (X n : Z) : list Z := snd (ladder_run_traced X n).

(** The four accumulators are outputs of [reduce]. *)
Definition reduced (s : ladder) : Prop :=
  exists a b c d, x_2 s = field.reduce a /\ z_2 s = field.reduce b
                  /\ x_3 s = field.reduce c /\ z_3 s = field.reduce d.

(** A ratio whose two components are canonical field elements. *)
Definition canonical (r : ratio) : Prop :=
  0 <= x r < field.p /\ 0 <= z r < field.p.

End Curve.

(** A canonical field element. *)
Definition field_element (v : Z) : Prop := 0 <= v < field.p.

(** Congruence modulo the field prime. *)
Definition eqp (a b : Z) : Prop := a mod field.p = b mod field.p.

Notation "a == b" := (eqp a b) (at level 70, no associativity).

(** The ratio [r] represents the affine coordinate [u]: [r.x = u * r.z] in
    the field, with [r.z] nonzero unless [u] is zero. *)
Definition represents (r : ratio) (u : Z) : Prop :=
  x r == u * z r /\ (~ u == 0 -> ~ z r == 0).

(** The locals of [pointMult X] as long as every scalar bit seen so far was
    0: the accumulator [(x_2, z_2)] still holds the seed [(1, 0)], no swap is
    pending, and [(x_3, z_3)] represents [X]. *)
Definition zero_phase (X : Z) (s : ladder) : Prop :=
  x_2 s = 1 /\ z_2 s = 0 /\ swap s = 0 /\
  represents (mkRatio (x_3 s) (z_3 s)) X.

(* ================================================================== *)
(** * The ladder as the design document words it (section 4.5) *)
(* ================================================================== *)

Module Design.
Section Design.
Context {F : field.ops}.

(** "two distinct a24 constants": [(A+2)/4] for doubling and [(A-2)/4]
    inside the ladder's combined step, with [A = 486662]. *)
Definition a24_double : Z := (486662 + 2) / 4.
Definition a24_mult : Z := (486662 - 2) / 4.

(** "accumulators (x2,z2) ... and (x3,z3) ...; and a single swap flag" *)
Record state : Type := mkState {
  even : Z * Z; odd : Z * Z; swap_flag : bool
}.

Definition cond_swap (b : bool) (P Q : Z * Z) : (Z * Z) * (Z * Z) :=
  if b then (Q, P) else (P, Q).

(** Step 4, "all products reduced before use in subsequent combination". *)
Definition combined_step (x1 : Z) (P2 P3 : Z * Z) : (Z * Z) * (Z * Z) :=
  let '(x2, z2) := P2 in
  let '(x3, z3) := P3 in
  let A := x2 + z2 in let AA := A ^ 2 in
  let B := x2 - z2 in let BB := B ^ 2 in
  let E := AA - BB in
  let C := x3 + z3 in let D := x3 - z3 in
  let DA := D * A in let CB := C * B in
  let x3' := field.reduce ((DA + CB) ^ 2) in
  let z3' := field.reduce (x1 * (DA - CB) ^ 2) in
  let x2' := field.reduce (AA * BB) in
  let z2' := field.reduce (E * (AA + a24_mult * E)) in
  ((x2', z2'), (x3', z3')).

(** Steps 1 to 5 for bit index [t]: the flag is XORed with the bit, the
    swap uses that running value, and the flag is reset to the bit. *)
Definition iteration (x1 n : Z) (st : state) (t : Z) : state :=
  let k_t := Z.testbit n t in
  let running := xorb (swap_flag st) k_t in
  let '(P2, P3) := cond_swap running (even st) (odd st) in
  let '(P2', P3') := combined_step x1 P2 P3 in
  mkState P2' P3' k_t.

(** "for bit index t from 255 down to 0" *)
Definition bit_indices : list Z := map Z.of_nat (rev (seq 0 256)).

(** "seeded as x2=1,z2=0 and x3=X,z3=1" *)
Definition seed (X : Z) : state := mkState (1, 0) (X, 1) false.

(** "After the loop, perform a final conditional swap ... and return
    (x2,z2)". *)
Definition ladder (X n : Z) : Z * Z :=
  let st := fold_left (iteration X n) bit_indices (seed X) in
  fst (cond_swap (swap_flag st) (even st) (odd st)).

End Design.
End Design.

(** How a design-level state is laid out in the locals of [pointMult]. *)
Definition locals_of (st : Design.state) : ladder :=
  mkLadder (fst (Design.even st)) (snd (Design.even st))
           (fst (Design.odd st)) (snd (Design.odd st))
           (Z.b2z (Design.swap_flag st)).

(* ================================================================== *)
(** * Cheaper modular arithmetic, for the evaluations below *)
(* ================================================================== *)

(** The low [k] bits of a positive number and what is above them. *)
Fixpoint split_pos (k : nat) (v : positive) : Z * Z :=
  match k with
  | O => (0, Z.pos v)
  | S k' =>
      match v with
      | xH => (1, 0)
      | xO v' => let '(l, h) := split_pos k' v' in (Z.double l, h)
      | xI v' => let '(l, h) := split_pos k' v' in (Z.succ_double l, h)
      end
  end.

Definition split (k : nat) (v : Z) : Z * Z :=
  match v with
  | Z.pos v' => split_pos k v'
  | _ => (v, 0)
  end.

(** Reduction modulo [N] from an estimate of the quotient (Barrett's, with
    [mu] close to [2^(2k) / N] for a [k]-bit [N]); the estimate is checked,
    and [mod] is the fallback. *)
Definition barrett (N : Z) (k : nat) (mu : Z) (v : Z) : Z :=
  let q := snd (split (S k) (snd (split (pred k) v) * mu)) in
  let r := v - q * N in
  if (0 <=? r) && (r <? N) then r
  else if (N <=? r) && (r <? 2 * N) then r - N
  else if (2 * N <=? r) && (r <? 3 * N) then r - 2 * N
  else v mod N.

(** Square-and-multiply with the reduction [red]. *)
Fixpoint powmod_pos (red : Z -> Z) (a : Z) (m : positive) : Z :=
  match m with
  | xH => red a
  | xO m' => red (Z.square (powmod_pos red a m'))
  | xI m' => red (a * red (Z.square (powmod_pos red a m')))
  end.

Definition powmod (red : Z -> Z) (a m : Z) : Z :=
  match m with
  | Z0 => red 1
  | Z.pos m' => powmod_pos red a m'
  | Z.neg _ => 0
  end.

(** The reduction used for the modulus [N]. *)
Definition reduction (N : Z) : Z -> Z :=
  let k := S (Z.to_nat (Z.log2 N)) in
  let mu := 2 ^ (2 * Z.of_nat k) / N in
  barrett N k mu.

(* ================================================================== *)
(** * A checker for Pocklington primality certificates *)
(* ================================================================== *)

Module Pocklington.

(** A certificate for [N] is a base [a] and a list of prime powers
    [(q, e)] with [q ^ e] dividing [N - 1]. *)
Definition factor : Type := (Z * Z)%type.
Definition cert : Type := (Z * Z * list factor)%type.

Definition factor_ok (red : Z -> Z) (N a : Z) (f : factor) : bool :=
  let '(q, e) := f in
  (0 <? e) && ((N - 1) mod (q ^ e) =? 0)
  && (Z.gcd (powmod red a ((N - 1) / q) - 1) N =? 1).

Definition smooth_part (l : list factor) : Z :=
  fold_right (fun f acc => Z.lcm (fst f ^ snd f) acc) 1 l.

Definition pock_check (N a : Z) (l : list factor) : bool :=
  let red := reduction N in
  (1 <? N) && (N <? smooth_part l * smooth_part l)
  && (powmod red a (N - 1) =? 1) && forallb (factor_ok red N a) l.

(** Checks a chain of certificates; every [q] used must already be known
    to be prime.  Returns the primes established, newest first. *)
Fixpoint chain_run (known : list Z) (cs : list cert) : option (list Z) :=
  match cs with
  | [] => Some known
  | (N, a, l) :: cs' =>
      if forallb (fun f => existsb (Z.eqb (fst f)) known) l
         && pock_check N a l
      then chain_run (N :: known) cs'
      else None
  end.

(** Does the chain end by establishing [n]? *)
Definition chain_proves (n : Z) (known : list Z) (cs : list cert) : bool :=
  match chain_run known cs with
  | Some (m :: _) => m =? n
  | _ => false
  end.

(** A certificate chain from 2 up to 2^255 - 19. *)
Definition certificate : list cert := [
  (3, 2,
     [(2, 1)]);
  (7, 2,
     [(3, 1)]);
  (19, 2,
     [(3, 2)]);
  (5, 2,
     [(2, 2)]);
  (11, 2,
     [(5, 1)]);
  (23, 2,
     [(11, 1)]);
  (47, 2,
     [(23, 1)]);
  (127, 3,
     [(2, 1); (3, 2)]);
  (1919519569386763, 2,
     [(2, 1); (7, 1); (19, 1); (47, 2); (127, 1)]);
  (9463, 3,
     [(2, 1); (3, 1); (19, 1)]);
  (37853, 2,
     [(9463, 1)]);
  (75707, 2,
     [(37853, 1)]);
  (75445702479781427272750846543864801, 2,
     [(1919519569386763, 1); (75707, 1)]);
  (353, 3,
     [(2, 5)]);
  (74058212732561358302231226437062788676166966415465897661863160754340907, 2,
     [(75445702479781427272750846543864801, 1); (353, 1)]);
  (57896044618658097711785492504343953926634992332820282019728792003956564819949, 2,
     [(74058212732561358302231226437062788676166966415465897661863160754340907, 1)])
].

End Pocklington.

(* ================================================================== *)
(** * A cheaper way to evaluate the ladder over GF(2^255 - 19) *)
(* ================================================================== *)

(** [2^255 = 19] in the field: the bits above 255 fold onto the low ones. *)
Definition fold255 (v : Z) : Z := let '(l, h) := split 255 v in l + 19 * h.

(** The field prime, written out. *)
Definition p_digits : Z :=
  57896044618658097711785492504343953926634992332820282019728792003956564819949.

(** Reduction by folding, with [mod] as the fallback. *)
Definition fast_reduce (v : Z) : Z :=
  let w := fold255 (fold255 v) in
  if (0 <=? w) && (w <? p_digits) then w
  else if (p_digits <=? w) && (w <? 2 * p_digits) then w - p_digits
  else v mod p_digits.

(** [combined_step] with every product reduced at once and every
    difference kept non-negative. *)
Definition fast_step (x_1 a b c d k : Z) : ladder :=
  let A := a + b in
  let AA := fast_reduce (Z.square A) in
  let B := a - b + p_digits in
  let BB := fast_reduce (Z.square B) in
  let E := AA - BB + p_digits in
  let C := c + d in
  let D := c - d + p_digits in
  let DA := fast_reduce (D * A) in
  let CB := fast_reduce (C * B) in
  let S := DA + CB in
  let T := DA - CB + p_digits in
  mkLadder (fast_reduce (AA * BB))
           (fast_reduce (E * fast_reduce (AA + multA24 * E)))
           (fast_reduce (Z.square S))
           (fast_reduce (x_1 * fast_reduce (Z.square T)))
           k.

Definition fast_body (x_1 n t : Z) (s : ladder) : ladder :=
  let k_t := Z.land (Z.shiftr n t) 1 in
  let swap := Z.lxor (swap s) (flag k_t) in
  let '(x_2, x_3) := cswap (truthy swap) (x_2 s) (x_3 s) in
  let '(z_2, z_3) := cswap (truthy swap) (z_2 s) (z_3 s) in
  fast_step x_1 x_2 z_2 x_3 z_3 (flag k_t).

Definition fast_pointMult (X n : Z) : ratio :=
  ladder_finish (countdown 256 (fast_body X n) (ladder_init X)).

(* ================================================================== *)
(** * Test vectors *)
(* ================================================================== *)

(** The scalar and the expected output as the design document prints them
    (section 8, property 3). *)
Definition vector_scalar : Z :=
  0xa546e36bf0527c9d3b16154b82465edd62144c0ac1fc5a18506a2244ba449ac.
Definition vector_expected : Z :=
  0xc3da55379de9c6908e94ea4df28d084f32eccf03491c71f754b4075577a2851.

(** What the ladder returns, after affine recovery, for base point 9 and
    [vector_scalar]. *)
Definition vector_output : Z :=
  0x1e38e7905876ac1843f1f38bf9c6b7b2d4bf4f66e08bd54a6eca32567105cf76.

(** The first test vector of RFC 7748, section 5.2, in full: the scalar
    after [decodeScalar25519], the u-coordinate after [decodeUCoordinate],
    and the output u-coordinate, all as integers. *)
Definition rfc7748_scalar : Z :=
  31029842492115040904895560451863089656472772604678260265531221036453811406496.
Definition rfc7748_u : Z :=
  34426434033919594451155107781188821651316167215306631574996226621102155684838.
Definition rfc7748_output : Z :=
  0x5285a2775507b454f7711c4903cfec324f088df24dea948e90c6e99d3755dac3.

(* ================================================================== *)
(** * Relations between ratios, for the further properties *)
(* ================================================================== *)

(** Two ratios name the same point when they agree after
    cross-multiplication. *)
Definition same_point (r1 r2 : ratio) : Prop := x r1 * z r2 == x r2 * z r1.

(** [r'] is [r] with both components multiplied by [l], in the field. *)
Definition scaled (l : Z) (r r' : ratio) : Prop :=
  x r' == l * x r /\ z r' == l * z r.

(** The locals [s'] are the locals [s] with the two accumulators rescaled,
    by [l] and by [m], and the same pending swap. *)
Definition rescaled (l m : Z) (s s' : ladder) : Prop :=
  scaled l (mkRatio (x_2 s) (z_2 s)) (mkRatio (x_2 s') (z_2 s'))
  /\ scaled m (mkRatio (x_3 s) (z_3 s)) (mkRatio (x_3 s') (z_3 s'))
  /\ swap s' = swap s.

(** Locals that differ by nonzero factors, with a boolean swap flag. *)
Definition similar (s s' : ladder) : Prop :=
  (exists sw : bool, swap s = Z.b2z sw)
  /\ exists l m, ~ l == 0 /\ ~ m == 0 /\ rescaled l m s s'.

(* ================================================================== *)
(** * Proofs *)
(* ================================================================== *)

(** ** Loops *)

Section LoopFacts.
Context {St : Type}.
Implicit Types (body : Z -> St -> St) (s : St).

(** The literal loop terminates with the result of [for_down] as soon as
    the fuel covers the [hi + 1] passes. *)
Lemma for_down_fuel_countdown body : forall k fuel s,
  (k <= fuel)%nat ->
  for_down_fuel fuel (Z.of_nat k - 1) body s = Some (countdown k body s).
Proof.
  induction k as [| k IH]; intros fuel s Hk.
  - destruct fuel; reflexivity.
  - destruct fuel as [| fuel]; [lia |].
    cbn [for_down_fuel countdown].
    replace (Z.of_nat (S k) - 1 >=? 0) with true
      by (symmetry; apply Z.geb_le; lia).
    replace (Z.of_nat (S k) - 1) with (Z.of_nat k) by lia.
    apply IH. lia.
Qed.

(** With less fuel than passes the literal loop has not exited yet. *)
Lemma for_down_fuel_short body : forall k fuel s,
  (fuel < k)%nat -> for_down_fuel fuel (Z.of_nat k - 1) body s = None.
Proof.
  induction k as [| k IH]; intros fuel s Hk; [lia |].
  destruct fuel as [| fuel]; cbn [for_down_fuel];
    replace (Z.of_nat (S k) - 1 >=? 0) with true
      by (symmetry; apply Z.geb_le; lia); [reflexivity |].
  replace (Z.of_nat (S k) - 1 - 1) with (Z.of_nat k - 1) by lia.
  apply IH. lia.
Qed.

Lemma for_down_fuel_total body hi fuel s :
  -1 <= hi -> (Z.to_nat (hi + 1) <= fuel)%nat ->
  for_down_fuel fuel hi body s = Some (for_down hi body s).
Proof.
  intros Hhi Hfuel. unfold for_down.
  rewrite <- (for_down_fuel_countdown body _ fuel s Hfuel).
  f_equal. lia.
Qed.

Lemma countdown_ext body1 body2 : forall k s,
  (forall t, 0 <= t < Z.of_nat k -> forall s', body1 t s' = body2 t s') ->
  countdown k body1 s = countdown k body2 s.
Proof.
  induction k as [| k IH]; intros s H; [reflexivity |].
  cbn [countdown]. rewrite H by lia. apply IH. intros; apply H; lia.
Qed.

(** An invariant of the body is an invariant of the loop. *)
Lemma countdown_invariant (P : St -> Prop) body : forall k s,
  (forall t s', P s' -> P (body t s')) -> P s -> P (countdown k body s).
Proof.
  induction k as [| k IH]; intros s Hb Hs; [exact Hs |].
  cbn [countdown]. apply IH; auto.
Qed.

(** The instrumented loop computes the same state and logs the indices
    [k - 1, ..., 0] after whatever was logged before. *)
Lemma countdown_traced body : forall k s log,
  countdown k (traced body) (s, log)
  = (countdown k body s, log ++ map Z.of_nat (rev (seq 0 k))).
Proof.
  induction k as [| k IH]; intros s log.
  - cbn. now rewrite app_nil_r.
  - cbn [countdown]. unfold traced at 2. cbn [fst snd]. rewrite IH.
    rewrite seq_S, rev_app_distr. cbn [rev app map plus].
    now rewrite <- app_assoc.
Qed.

End LoopFacts.

(** ** Cheaper modular arithmetic *)

Lemma split_pos_spec : forall k v,
  Z.pos v = fst (split_pos k v) + 2 ^ Z.of_nat k * snd (split_pos k v).
Proof.
  induction k as [| k IH]; intros v.
  - cbn [split_pos fst snd]. change (2 ^ Z.of_nat 0) with 1. lia.
  - rewrite Nat2Z.inj_succ, Z.pow_succ_r by lia.
    destruct v as [v | v |]; cbn [split_pos].
    + specialize (IH v). destruct (split_pos k v) as [l h]. cbn [fst snd] in *.
      rewrite Z.succ_double_spec, Pos2Z.inj_xI, IH. ring.
    + specialize (IH v). destruct (split_pos k v) as [l h]. cbn [fst snd] in *.
      rewrite Z.double_spec, Pos2Z.inj_xO, IH. ring.
    + cbn [fst snd]. ring.
Qed.

Lemma split_spec k v : v = fst (split k v) + 2 ^ Z.of_nat k * snd (split k v).
Proof.
  destruct v as [| v | v]; cbn [split fst snd]; try ring. apply split_pos_spec.
Qed.

Lemma barrett_mod N k mu v : 0 < N -> barrett N k mu v = v mod N.
Proof.
  intros HN. unfold barrett.
  set (q := snd (split (S k) (snd (split (pred k) v) * mu))).
  destruct ((0 <=? v - q * N) && (v - q * N <? N)) eqn:E0.
  { apply andb_true_iff in E0 as [H1%Z.leb_le H2%Z.ltb_lt].
    apply Z.mod_unique with q; [lia | ring]. }
  destruct ((N <=? v - q * N) && (v - q * N <? 2 * N)) eqn:E1.
  { apply andb_true_iff in E1 as [H1%Z.leb_le H2%Z.ltb_lt].
    apply Z.mod_unique with (q + 1); [lia | ring]. }
  destruct ((2 * N <=? v - q * N) && (v - q * N <? 3 * N)) eqn:E2.
  { apply andb_true_iff in E2 as [H1%Z.leb_le H2%Z.ltb_lt].
    apply Z.mod_unique with (q + 2); [lia | ring]. }
  reflexivity.
Qed.

Lemma reduction_mod N v : 0 < N -> reduction N v = v mod N.
Proof. apply barrett_mod. Qed.

Section Powmod.
Variables (red : Z -> Z) (N : Z).
Hypothesis HN : 0 < N.
Hypothesis Hred : forall v, red v = v mod N.

Lemma powmod_pos_correct a : forall m, powmod_pos red a m = a ^ Z.pos m mod N.
Proof.
  induction m as [m IH | m IH |]; cbn [powmod_pos].
  - rewrite !Hred, IH, Z.square_spec, Pos2Z.inj_xI.
    rewrite Z.pow_add_r, Z.pow_twice_r, Z.pow_1_r by lia.
    rewrite <- Z.mul_mod, Z.mul_mod_idemp_r by lia. f_equal. ring.
  - rewrite !Hred, IH, Z.square_spec, Pos2Z.inj_xO, Z.pow_twice_r.
    rewrite <- Z.mul_mod by lia. reflexivity.
  - rewrite Hred, Z.pow_1_r. reflexivity.
Qed.

Lemma powmod_correct a m : powmod red a m = a ^ m mod N.
Proof.
  destruct m as [| m | m]; cbn [powmod].
  - rewrite Hred, Z.pow_0_r. reflexivity.
  - apply powmod_pos_correct.
  - rewrite Z.pow_neg_r by lia. symmetry. apply Z.mod_0_l. lia.
Qed.

End Powmod.

(** ** Pocklington's criterion and the primality of 2^255 - 19 *)

Module PocklingtonFacts.
Import Pocklington.

Lemma prime_divisor_exists n : 1 < n -> exists r, Z.prime r /\ (r | n).
Proof.
  induction n as [n IH] using (well_founded_induction (Z.lt_wf 0)); intros Hn.
  destruct (prime_dec n) as [Hp | Hnp].
  - exists n; split; [now apply prime_alt | apply Z.divide_refl].
  - destruct (not_prime_divide n Hn Hnp) as (d & Hd & Hdn).
    destruct (IH d ltac:(lia) ltac:(lia)) as (r & Hr & Hrd).
    exists r; split; [assumption | eapply Z.divide_trans; eassumption].
Qed.

(** A proper divisor gives a prime divisor below the square root. *)
Lemma small_prime_divisor N n :
  1 < n < N -> (n | N) -> exists r, Z.prime r /\ (r | N) /\ r * r <= N.
Proof.
  intros Hn [c Hc].
  assert (Hc1 : 1 < c) by nia.
  assert (Hm : exists m, 1 < m /\ (m | N) /\ m * m <= N).
  { destruct (Z_le_gt_dec c n).
    - exists c; split; [lia | split; [exists n; lia | nia]].
    - exists n; split; [lia | split; [exists c; lia | nia]]. }
  destruct Hm as (m & Hm1 & HmN & Hmm).
  destruct (prime_divisor_exists m Hm1) as (r & Hr & Hrm).
  exists r; split; [assumption | split].
  - eapply Z.divide_trans; eassumption.
  - pose proof (Z.prime_ge_2 r Hr).
    pose proof (Z.divide_pos_le r m ltac:(lia) Hrm). nia.
Qed.

Lemma pow_mod_one r b k : 1 < r -> 0 <= k -> b mod r = 1 -> b ^ k mod r = 1.
Proof.
  intros Hr Hk Hb. rewrite Zpower_mod, Hb, Z.pow_1_l by lia.
  apply Z.mod_1_l; lia.
Qed.

Lemma bezout_nonneg m n :
  0 < m -> 0 < n -> exists u v, 0 <= u /\ 0 <= v /\ u * m = Z.gcd m n + v * n.
Proof.
  intros Hm Hn. destruct (Z.gcd_bezout m n _ eq_refl) as (a & b & Hab).
  exists (a + (Z.abs a + Z.abs b) * n), ((Z.abs a + Z.abs b) * m - b).
  split; [nia | split; [nia | lia]].
Qed.

(** The exponents that send [a] to 1 modulo [r] are closed under gcd. *)
Lemma pow_gcd_one r a m n :
  1 < r -> 0 < m -> 0 < n ->
  a ^ m mod r = 1 -> a ^ n mod r = 1 -> a ^ Z.gcd m n mod r = 1.
Proof.
  intros Hr Hm Hn Ham Han.
  destruct (bezout_nonneg m n Hm Hn) as (u & v & Hu & Hv & Huv).
  pose proof (Z.gcd_nonneg m n) as Hg.
  assert (H1 : a ^ (u * m) mod r = 1).
  { rewrite Z.mul_comm, Z.pow_mul_r by lia. now apply pow_mod_one. }
  assert (H2 : a ^ (v * n) mod r = 1).
  { rewrite Z.mul_comm, Z.pow_mul_r by lia. now apply pow_mod_one. }
  rewrite Huv, Z.pow_add_r, Z.mul_mod, H2, Z.mul_1_r, Z.mod_mod in H1 by nia.
  exact H1.
Qed.

Lemma mod_divisor r N b : 1 < r -> 0 < N -> (r | N) -> (b mod N) mod r = b mod r.
Proof. intros Hr HN Hd. apply Z.mod_mod_divide; trivial. Qed.

(** One checked factor [q ^ e] of [N - 1] divides [r - 1] for every prime
    divisor [r] of [N]. *)
Lemma factor_sound red N a q e r :
  1 < N -> (forall v, red v = v mod N) ->
  a ^ (N - 1) mod N = 1 -> factor_ok red N a (q, e) = true -> Z.prime q ->
  Z.prime r -> (r | N) -> (q ^ e | r - 1).
Proof.
  intros HN Hred Ha1 Hok Hq Hr HrN. unfold factor_ok in Hok.
  rewrite !andb_true_iff, Z.ltb_lt, !Z.eqb_eq in Hok.
  rewrite (powmod_correct red N) in Hok by (assumption || lia).
  destruct Hok as [[He HqN] Hgcd].
  pose proof (Z.prime_ge_2 r Hr) as Hr2. pose proof (Z.prime_ge_2 q Hq) as Hq2.
  assert (Har : a ^ (N - 1) mod r = 1).
  { rewrite <- (mod_divisor r N) by (trivial; lia). rewrite Ha1.
    apply Z.mod_1_l; lia. }
  assert (Hnz : a mod r <> 0).
  { intros H0. rewrite Zpower_mod, H0, Z.pow_0_l, Z.mod_0_l in Har by lia.
    discriminate. }
  pose proof (Z.fermat_nz r a Hr Hnz) as Hf.
  pose proof (pow_gcd_one r a (N - 1) (r - 1)
                ltac:(lia) ltac:(lia) ltac:(lia) Har Hf) as Hg.
  set (g := Z.gcd (N - 1) (r - 1)) in *.
  assert (Hg0 : 0 < g).
  { pose proof (Z.gcd_nonneg (N - 1) (r - 1)).
    assert (g <> 0) by (unfold g; intros E; apply Z.gcd_eq_0_l in E; lia).
    lia. }
  destruct (Z.gcd_divide_l (N - 1) (r - 1)) as [c Hc]. fold g in Hc.
  assert (Hqc : ~ (q | c)).
  { intros [c' Hc'].
    assert (Hc0 : 0 <= c') by nia.
    assert (Hdiv : (N - 1) / q = c' * g).
    { rewrite Hc, Hc'. replace (c' * q * g) with (c' * g * q) by ring.
      apply Z.div_mul; lia. }
    assert (H1 : a ^ ((N - 1) / q) mod r = 1).
    { rewrite Hdiv, Z.mul_comm, Z.pow_mul_r by lia.
      apply pow_mod_one; [lia | lia | exact Hg]. }
    assert (Hd : (r | a ^ ((N - 1) / q) mod N - 1)).
    { apply Z.mod_divide; [lia |].
      rewrite Zminus_mod, (mod_divisor r N), H1 by (trivial; lia).
      rewrite Z.mod_1_l by lia. reflexivity. }
    pose proof (Z.gcd_greatest _ _ _ Hd HrN) as H2. rewrite Hgcd in H2.
    apply Z.divide_1_r_nonneg in H2; lia. }
  apply Z.divide_trans with g; [| apply Z.gcd_divide_r].
  apply Z.mod_divide in HqN; [| apply Z.pow_nonzero; lia].
  rewrite Hc in HqN.
  apply Z.gauss with c; trivial.
  apply Z.coprime_pow_l; [lia |]. now apply Z.coprime_prime_l.
Qed.

Lemma smooth_part_divides red N a l r :
  1 < N -> (forall v, red v = v mod N) ->
  a ^ (N - 1) mod N = 1 -> forallb (factor_ok red N a) l = true ->
  Forall (fun f => Z.prime (fst f)) l ->
  Z.prime r -> (r | N) -> (smooth_part l | r - 1).
Proof.
  intros HN Hred Ha1 Hok Hpr Hr HrN. induction l as [| [q e] l IH]; simpl.
  - apply Z.divide_1_l.
  - simpl in Hok. apply andb_true_iff in Hok as [Hw Hl]. inversion Hpr; subst.
    apply Z.lcm_least; [eapply factor_sound; eauto | auto].
Qed.

(** Pocklington's criterion: a checked certificate establishes primality. *)
Theorem pock_sound N a l :
  pock_check N a l = true -> Forall (fun f => Z.prime (fst f)) l -> Z.prime N.
Proof.
  unfold pock_check. rewrite !andb_true_iff, !Z.ltb_lt, Z.eqb_eq.
  intros [[[HN HF] Ha1] Hok] Hpr.
  assert (Hred : forall v, reduction N v = v mod N)
    by (intros; apply reduction_mod; lia).
  rewrite (powmod_correct _ N) in Ha1 by (assumption || lia).
  split; [assumption |]. intros n Hn Hdiv.
  destruct (small_prime_divisor N n Hn Hdiv) as (r & Hr & HrN & Hrr).
  pose proof (smooth_part_divides _ N a l r HN Hred Ha1 Hok Hpr Hr HrN) as HFr.
  pose proof (Z.prime_ge_2 r Hr).
  pose proof (Z.divide_pos_le (smooth_part l) (r - 1) ltac:(lia) HFr).
  assert (0 <= smooth_part l).
  { destruct l as [| w l']; simpl; [lia | apply Z.lcm_nonneg]. }
  nia.
Qed.

Lemma chain_sound cs : forall known known',
  Forall Z.prime known -> chain_run known cs = Some known' ->
  Forall Z.prime known'.
Proof.
  induction cs as [| [[N a] l] cs IH]; simpl; intros known known' Hk Hrun.
  - now inversion Hrun; subst.
  - match type of Hrun with (if ?b then _ else _) = _ => destruct b eqn:E end;
      [| discriminate].
    apply andb_true_iff in E as [Hin Hck].
    apply (IH (N :: known)); trivial. constructor; trivial.
    apply (pock_sound N a l Hck). apply Forall_forall. intros w Hw.
    rewrite forallb_forall in Hin. specialize (Hin w Hw).
    apply existsb_exists in Hin as (q & Hq & Heq). apply Z.eqb_eq in Heq.
    subst q. rewrite Forall_forall in Hk. auto.
Qed.

Lemma chain_proves_sound n known cs :
  chain_proves n known cs = true -> Forall Z.prime known -> Z.prime n.
Proof.
  unfold chain_proves. intros H Hk.
  destruct (chain_run known cs) as [[| m l] |] eqn:R; try discriminate.
  apply Z.eqb_eq in H. subst m.
  pose proof (chain_sound cs known _ Hk R) as Hall. now inversion Hall.
Qed.

(** The field prime is prime. *)
Lemma prime_p : Z.prime field.p.
Proof.
  apply (chain_proves_sound field.p [2] certificate).
  - vm_cast_no_check (eq_refl true).
  - constructor; [apply Z.prime_2 | constructor].
Qed.

End PocklingtonFacts.

(** ** The field GF(2^255 - 19) *)

Lemma p_value : field.p = p_digits.
Proof. reflexivity. Qed.

Lemma p_gt_4 : 4 < field.p.
Proof. rewrite p_value. unfold p_digits. lia. Qed.

Lemma p_nonzero : field.p <> 0.
Proof. pose proof p_gt_4. lia. Qed.

#[global] Hint Resolve p_nonzero : core.

#[global] Instance eqp_equivalence : Equivalence eqp.
Proof.
  split; unfold eqp; [intros a | intros a b H | intros a b c H1 H2]; congruence.
Qed.

#[global] Instance add_eqp : Proper (eqp ==> eqp ==> eqp) Z.add.
Proof.
  intros a a' Ha b b' Hb. unfold eqp in *.
  rewrite (Z.add_mod a), (Z.add_mod a'), Ha, Hb by auto. reflexivity.
Qed.

#[global] Instance mul_eqp : Proper (eqp ==> eqp ==> eqp) Z.mul.
Proof.
  intros a a' Ha b b' Hb. unfold eqp in *.
  rewrite (Z.mul_mod a), (Z.mul_mod a'), Ha, Hb by auto. reflexivity.
Qed.

#[global] Instance sub_eqp : Proper (eqp ==> eqp ==> eqp) Z.sub.
Proof.
  intros a a' Ha b b' Hb. unfold eqp in *.
  rewrite (Zminus_mod a), (Zminus_mod a'), Ha, Hb. reflexivity.
Qed.

Lemma mod_eqp a : a mod field.p == a.
Proof. unfold eqp. apply Z.mod_mod; auto. Qed.

(** [reduce] of the instance, as a rewriting rule. *)
Lemma reduce_mod v : field.reduce v = v mod field.p.
Proof. reflexivity. Qed.

Lemma reduce_eqp v : field.reduce v == v.
Proof. rewrite reduce_mod. apply mod_eqp. Qed.

Lemma reduce_proper a b : a == b -> field.reduce a = field.reduce b.
Proof. intros H. exact H. Qed.

Lemma reduce_range v : 0 <= field.reduce v < field.p.
Proof. rewrite reduce_mod. apply Z.mod_pos_bound. pose proof p_gt_4. lia. Qed.

Lemma reduce_small v : field_element v -> field.reduce v = v.
Proof. intros H. rewrite reduce_mod. now apply Z.mod_small. Qed.

Lemma eqp_zero_iff a : a == 0 <-> a mod field.p = 0.
Proof. unfold eqp. rewrite Z.mod_0_l by auto. reflexivity. Qed.

Lemma one_not_zero : ~ 1 == 0.
Proof.
  rewrite eqp_zero_iff, Z.mod_1_l by (pose proof p_gt_4; lia). discriminate.
Qed.

Lemma four_not_zero : ~ 4 == 0.
Proof.
  rewrite eqp_zero_iff, Z.mod_small by (pose proof p_gt_4; lia). discriminate.
Qed.

(** The field has no zero divisors: this is where primality enters. *)
Lemma mul_not_zero a b : ~ a == 0 -> ~ b == 0 -> ~ a * b == 0.
Proof.
  rewrite !eqp_zero_iff, !Z.mod_divide by auto. intros Ha Hb Hab.
  apply (Z.divide_prime_mul _ _ _ PocklingtonFacts.prime_p) in Hab. tauto.
Qed.

Lemma mul_zero_l a b : a == 0 -> a * b == 0.
Proof. intros H. rewrite H. reflexivity. Qed.

Lemma mul_zero_r a b : b == 0 -> a * b == 0.
Proof. intros H. rewrite H, Z.mul_0_r. reflexivity. Qed.

(** [inverseOf] succeeds exactly off zero, and then returns an inverse. *)
Lemma inverseOf_none v : v == 0 -> field.inverseOf v = None.
Proof.
  intros H. apply eqp_zero_iff in H. cbn [field.inverseOf field.Fp].
  now rewrite H.
Qed.

Lemma inverseOf_some v :
  ~ v == 0 -> exists i, field.inverseOf v = Some i /\ v * i == 1.
Proof.
  intros H. rewrite eqp_zero_iff in H. exists (Z.invmod v field.p). split.
  - cbn [field.inverseOf field.Fp]. destruct (Z.eqb_spec (v mod field.p) 0); tauto.
  - unfold eqp. rewrite Z.mul_comm, (Z.invmod_prime _ _ PocklingtonFacts.prime_p H).
    symmetry. apply Z.mod_1_l. pose proof p_gt_4. lia.
Qed.

(** Affine recovery of a ratio [(x0, z0)] that represents [u]. *)
Lemma X_of_cross x0 z0 u :
  ~ z0 == 0 -> x0 == u * z0 -> X x0 z0 = Some (u mod field.p).
Proof.
  intros Hz Hx. destruct (inverseOf_some z0 Hz) as (i & Hi & Hzi).
  unfold X. rewrite Hi, reduce_mod. f_equal.
  change (x0 * i == u). rewrite Hx, <- Z.mul_assoc, Hzi, Z.mul_1_r. reflexivity.
Qed.

Lemma X_none x0 z0 : z0 == 0 -> X x0 z0 = None.
Proof. intros H. unfold X. now rewrite (inverseOf_none z0 H). Qed.

(** What a successful recovery says about the ratio. *)
Lemma X_some x0 z0 u : X x0 z0 = Some u -> ~ z0 == 0 /\ field_element u /\ u * z0 == x0.
Proof.
  intros H. assert (Hz : ~ z0 == 0).
  { intros Hz. rewrite (X_none _ _ Hz) in H. discriminate. }
  split; [exact Hz |]. destruct (inverseOf_some z0 Hz) as (i & Hi & Hzi).
  unfold X in H. rewrite Hi in H. injection H as <-. split.
  - apply reduce_range.
  - rewrite (reduce_eqp (x0 * i)), <- Z.mul_assoc, (Z.mul_comm i), Hzi, Z.mul_1_r.
    reflexivity.
Qed.

(** ** Scalar bits and the swap flag *)

Lemma bit_of_scalar n t : Z.land (Z.shiftr n t) 1 = Z.b2z (Z.testbit n t).
Proof.
  change 1 with (Z.ones 1) at 1. rewrite Z.land_ones by lia.
  change (2 ^ 1) with 2. rewrite <- Z.bit0_mod, Z.shiftr_spec by lia.
  reflexivity.
Qed.

Lemma flag_b2z b : flag (Z.b2z b) = Z.b2z b.
Proof. now destruct b. Qed.

Lemma truthy_b2z b : truthy (Z.b2z b) = b.
Proof. now destruct b. Qed.

Lemma truthy_lxor s k : truthy (Z.lxor (Z.b2z s) (Z.b2z k)) = xorb s k.
Proof. now destruct s, k. Qed.

(** ** One pass of the ladder *)

Section BodyFacts.
Context {F : field.ops}.

(** The pass depends on the scalar only through bit [t]. *)
Lemma ladder_body_bit_ext X n n' t t' s :
  Z.testbit n t = Z.testbit n' t' ->
  ladder_body X n t s = ladder_body X n' t' s.
Proof.
  intros H. unfold ladder_body. rewrite !bit_of_scalar, H. reflexivity.
Qed.

(** The pass, by cases on whether the accumulators are exchanged. *)
Lemma ladder_body_cases X n t s (sw : bool) :
  swap s = Z.b2z sw ->
  ladder_body X n t s =
    if xorb sw (Z.testbit n t)
    then combined_step X (x_3 s) (z_3 s) (x_2 s) (z_2 s) (Z.b2z (Z.testbit n t))
    else combined_step X (x_2 s) (z_2 s) (x_3 s) (z_3 s) (Z.b2z (Z.testbit n t)).
Proof.
  intros Hsw. unfold ladder_body.
  rewrite bit_of_scalar, flag_b2z, Hsw, truthy_lxor.
  destruct (xorb sw (Z.testbit n t)); reflexivity.
Qed.

(** The pass refines the design's iteration. *)
Lemma iteration_refines X n t st :
  ladder_body X n t (locals_of st) = locals_of (Design.iteration X n st t).
Proof.
  rewrite (ladder_body_cases X n t _ (Design.swap_flag st)) by reflexivity.
  destruct st as [[a b] [c d] sw]. unfold Design.iteration.
  cbn [Design.swap_flag Design.even Design.odd locals_of x_2 z_2 x_3 z_3 fst snd].
  destruct (xorb sw (Z.testbit n t));
    cbn [Design.cond_swap Design.combined_step];
    unfold locals_of, combined_step;
    cbn [Design.swap_flag Design.even Design.odd fst snd];
    rewrite !Z.pow_2_r; change Design.a24_mult with multA24;
    repeat (f_equal; try ring).
Qed.

Lemma countdown_S {St} (body : Z -> St -> St) k s :
  countdown (S k) body s = countdown k body (body (Z.of_nat k) s).
Proof. reflexivity. Qed.

Lemma countdown_fold_left {St} (body : Z -> St -> St) : forall k s,
  countdown k body s
  = fold_left (fun s t => body t s) (map Z.of_nat (rev (seq 0 k))) s.
Proof.
  induction k as [| k IH]; intros s; [reflexivity |].
  rewrite countdown_S, seq_S, rev_app_distr. cbn [rev app map plus fold_left].
  apply IH.
Qed.

Lemma fold_refines X n : forall l st,
  fold_left (fun s t => ladder_body X n t s) l (locals_of st)
  = locals_of (fold_left (Design.iteration X n) l st).
Proof.
  induction l as [| t l IH]; intros st; [reflexivity |].
  cbn [fold_left]. rewrite iteration_refines. apply IH.
Qed.

Lemma bound_passes : Z.to_nat (255 + 1) = 256%nat.
Proof. reflexivity. Qed.

Lemma ladder_run_refines X n :
  ladder_run X n
  = locals_of (fold_left (Design.iteration X n) Design.bit_indices (Design.seed X)).
Proof.
  unfold ladder_run, for_down. rewrite bound_passes, countdown_fold_left.
  change (ladder_init X) with (locals_of (Design.seed X)).
  apply fold_refines.
Qed.

Lemma pointMult_refines X n :
  pointMult X n = mkRatio (fst (Design.ladder X n)) (snd (Design.ladder X n)).
Proof.
  unfold pointMult, Design.ladder. rewrite ladder_run_refines.
  destruct (fold_left _ _ _) as [[a b] [c d] sw].
  unfold ladder_finish, locals_of.
  cbn [swap x_2 z_2 x_3 z_3 Design.swap_flag Design.even Design.odd fst snd].
  rewrite truthy_b2z. now destruct sw.
Qed.

(** The instrumented loop runs the same passes and logs 255, ..., 0. *)
Lemma ladder_run_traced_eq X n :
  ladder_run_traced X n
  = (ladder_run X n, map (fun i => 255 - Z.of_nat i) (seq 0 256)).
Proof.
  unfold ladder_run_traced, ladder_run, for_down.
  rewrite bound_passes, countdown_traced. reflexivity.
Qed.

(** The literal loop, given 256 passes of fuel or more, exits with the
    locals of [ladder_run]. *)
Lemma ladder_loop_terminates X n fuel :
  (256 <= fuel)%nat ->
  for_down_fuel fuel 255 (ladder_body X n) (ladder_init X)
  = Some (ladder_run X n).
Proof.
  intros H. unfold ladder_run. apply for_down_fuel_total.
  - lia.
  - rewrite bound_passes. exact H.
Qed.

(** With 255 passes of fuel the literal loop is still running. *)
Lemma ladder_loop_needs_256 X n :
  for_down_fuel 255 255 (ladder_body X n) (ladder_init X) = None.
Proof. apply (for_down_fuel_short _ 256 255). lia. Qed.

Lemma ladder_body_reduced X n t s : reduced (ladder_body X n t s).
Proof.
  unfold ladder_body.
  destruct (cswap _ (x_2 s) (x_3 s)), (cswap _ (z_2 s) (z_3 s)).
  unfold reduced. cbn [x_2 z_2 x_3 z_3]. eauto 10.
Qed.

Lemma ladder_run_reduced X n : reduced (ladder_run X n).
Proof.
  unfold ladder_run, for_down. rewrite bound_passes, countdown_S.
  apply countdown_invariant; intros; apply ladder_body_reduced.
Qed.

End BodyFacts.

(** ** The ladder over GF(2^255 - 19) *)

Ltac eqp_ring := unfold eqp; f_equal; ring.

(** Exchanging the accumulators out of the zero phase: the pair that moves
    into [(x_3, z_3)] is the sum of a representative of [X] and of the seed
    [(1, 0)], and represents [X] again. *)
Lemma add_seed_represents X a b k :
  represents (mkRatio a b) X ->
  represents (mkRatio (x_3 (combined_step X a b 1 0 k))
                      (z_3 (combined_step X a b 1 0 k))) X.
Proof.
  unfold represents. cbn [x z combined_step x_3 z_3]. intros [Hab Hnz].
  rewrite !reduce_eqp. split.
  - rewrite Hab. eqp_ring.
  - intros HX.
    replace (X * ((1 - 0) * (a + b) - (1 + 0) * (a - b))
               * ((1 - 0) * (a + b) - (1 + 0) * (a - b)))
      with (4 * (X * (b * b))) by ring.
    auto using mul_not_zero, four_not_zero.
Qed.

(** A pass on a zero bit stays in the zero phase. *)
Lemma zero_phase_pass X n t s :
  zero_phase X s -> Z.testbit n t = false -> zero_phase X (ladder_body X n t s).
Proof.
  destruct s as [a2 b2 a b sw]. unfold zero_phase, represents at 1.
  cbn [x_2 z_2 x_3 z_3 swap x z]. intros (-> & -> & -> & Hab & Hnz) Hbit.
  rewrite (ladder_body_cases X n t _ false) by reflexivity.
  rewrite Hbit. cbn [xorb x_2 z_2 x_3 z_3 swap Z.b2z combined_step].
  split; [reflexivity |]. split; [reflexivity |]. split; [reflexivity |].
  unfold represents. cbn [x z]. rewrite !reduce_eqp. split.
  - rewrite Hab. eqp_ring.
  - intros HX.
    replace (X * ((a - b) * (1 + 0) - (a + b) * (1 - 0))
               * ((a - b) * (1 + 0) - (a + b) * (1 - 0)))
      with (4 * (X * (b * b))) by ring.
    auto using mul_not_zero, four_not_zero.
Qed.

Lemma zero_phase_init X : zero_phase X (ladder_init X).
Proof.
  unfold zero_phase, ladder_init, represents. cbn [x_2 z_2 x_3 z_3 swap x z].
  repeat split; auto using one_not_zero. now rewrite Z.mul_1_r.
Qed.

(** The passes for bit indices [k - 1 .. j], all on zero bits, lead from the
    zero phase to the zero phase. *)
Lemma zero_phase_run X n j : forall k s,
  (j <= k)%nat ->
  (forall t, Z.of_nat j <= t < Z.of_nat k -> Z.testbit n t = false) ->
  zero_phase X s ->
  exists s', zero_phase X s' /\
             countdown k (ladder_body X n) s = countdown j (ladder_body X n) s'.
Proof.
  induction k as [| k IH]; intros s Hjk Hbits Hs.
  - exists s. split; [assumption |]. now replace j with 0%nat by lia.
  - destruct (Nat.eq_dec j (S k)) as [-> | Hne].
    + exists s. now split.
    + rewrite countdown_S. apply IH; [lia | intros; apply Hbits; lia |].
      apply zero_phase_pass; [assumption | apply Hbits; lia].
Qed.

Lemma testbit_above n t : 0 <= n -> Z.log2 n < t -> Z.testbit n t = false.
Proof. intros. now apply Z.bits_above_log2. Qed.

(** The ladder on the scalar 0 never leaves the zero phase. *)
Lemma ladder_run_0 X : zero_phase X (ladder_run X 0).
Proof.
  unfold ladder_run, for_down. rewrite bound_passes.
  destruct (zero_phase_run X 0 0 256 (ladder_init X)) as (s' & Hs' & ->);
    auto using zero_phase_init; [lia | intros; apply Z.testbit_0_l].
Qed.

(** The ladder on the scalar 1 returns a representative of [X]. *)
Lemma pointMult_1_represents X : represents (pointMult X 1) X.
Proof.
  unfold pointMult, ladder_run, for_down. rewrite bound_passes.
  destruct (zero_phase_run X 1 1 256 (ladder_init X)) as (s & Hs & ->);
    auto using zero_phase_init; [lia | intros; apply testbit_above; cbn; lia |].
  destruct s as [a2 b2 a b sw]. destruct Hs as (Hx2 & Hz2 & Hsw & Hrep).
  cbn [x_2 z_2 x_3 z_3 swap] in *. subst a2 b2 sw.
  rewrite countdown_S. cbn [countdown Z.of_nat].
  rewrite (ladder_body_cases X 1 0 _ false) by reflexivity.
  change (Z.testbit 1 0) with true. cbn [xorb x_2 z_2 x_3 z_3 Z.b2z].
  pose proof (add_seed_represents X a b 1 Hrep) as H.
  unfold ladder_finish. cbn [swap combined_step] in *.
  change (truthy 1) with true. cbn [cswap fst x_2 z_2 x_3 z_3]. exact H.
Qed.

(** The ladder on the scalar 2 returns the ladder's doubling of a
    representative of [X]. *)
Lemma pointMult_2_doubles X :
  exists c d, represents (mkRatio c d) X /\ pointMult X 2 = ladder_double c d.
Proof.
  unfold pointMult, ladder_run, for_down. rewrite bound_passes.
  destruct (zero_phase_run X 2 2 256 (ladder_init X)) as (s & Hs & ->);
    auto using zero_phase_init; [lia | intros; apply testbit_above; cbn; lia |].
  destruct s as [a2 b2 a b sw]. destruct Hs as (Hx2 & Hz2 & Hsw & Hrep).
  cbn [x_2 z_2 x_3 z_3 swap] in *. subst a2 b2 sw.
  rewrite !countdown_S. cbn [countdown Z.of_nat Pos.of_succ_nat].
  rewrite (ladder_body_cases X 2 1 _ false) by reflexivity.
  change (Z.testbit 2 1) with true. cbn [xorb x_2 z_2 x_3 z_3 Z.b2z].
  rewrite (ladder_body_cases X 2 0 _ true) by reflexivity.
  change (Z.testbit 2 0) with false. cbn [xorb Z.b2z].
  exists (x_3 (combined_step X a b 1 0 1)), (z_3 (combined_step X a b 1 0 1)).
  split; [now apply add_seed_represents | reflexivity].
Qed.

(** The two doubling formulas agree on representatives of the same point,
    by cross-multiplication. *)
Lemma double_cross x0 z0 c d u :
  x0 == u * z0 -> c == u * d ->
  x (ladder_double c d) * z (pointDouble x0 z0)
  == x (pointDouble x0 z0) * z (ladder_double c d).
Proof.
  intros Hx Hc. unfold ladder_double, pointDouble, combined_step.
  cbn [x z x_2 z_2]. rewrite !reduce_eqp, Hx, Hc.
  change doubleA24 with 121666. change multA24 with 121665. eqp_ring.
Qed.

Lemma double_denominators x0 z0 c d u :
  x0 == u * z0 -> c == u * d ->
  z (ladder_double c d) * (z0 * z0 * z0 * z0)
  == z (pointDouble x0 z0) * (d * d * d * d).
Proof.
  intros Hx Hc. unfold ladder_double, pointDouble, combined_step.
  cbn [x z x_2 z_2]. rewrite !reduce_eqp, Hx, Hc.
  change doubleA24 with 121666. change multA24 with 121665. eqp_ring.
Qed.

(** ** The cheaper evaluation computes the same ladder *)

Lemma two_255 : 2 ^ 255 == 19.
Proof. unfold eqp. reflexivity. Qed.

Lemma p_eqp_0 : field.p == 0.
Proof. unfold eqp. rewrite Z.mod_same, Z.mod_0_l by auto. reflexivity. Qed.

Lemma fold255_eqp v : fold255 v == v.
Proof.
  unfold fold255. pose proof (split_spec 255 v) as H.
  destruct (split 255 v) as [l h]. cbn [fst snd] in H.
  change (Z.of_nat 255) with 255 in H.
  transitivity (l + 2 ^ 255 * h); [now rewrite two_255 | now rewrite <- H].
Qed.

Lemma fast_reduce_mod v : fast_reduce v = v mod field.p.
Proof.
  unfold fast_reduce. rewrite <- p_value.
  assert (Hw : fold255 (fold255 v) == v) by now rewrite !fold255_eqp.
  set (w := fold255 (fold255 v)) in *.
  pose proof p_gt_4.
  destruct ((0 <=? w) && (w <? field.p)) eqn:E1.
  - apply andb_true_iff in E1 as [H1%Z.leb_le H2%Z.ltb_lt]. rewrite <- Hw.
    symmetry. apply Z.mod_small. lia.
  - destruct ((field.p <=? w) && (w <? 2 * field.p)) eqn:E2; [| reflexivity].
    apply andb_true_iff in E2 as [H1%Z.leb_le H2%Z.ltb_lt]. rewrite <- Hw.
    apply Z.mod_unique with 1; lia.
Qed.

Lemma fast_reduce_eqp v : fast_reduce v == v.
Proof. rewrite fast_reduce_mod. apply mod_eqp. Qed.

#[global] Instance fast_reduce_eqp_proper : Proper (eqp ==> eq) fast_reduce.
Proof. intros a b H. rewrite !fast_reduce_mod. exact H. Qed.

Lemma fast_step_eq x_1 a b c d k :
  fast_step x_1 a b c d k = combined_step x_1 a b c d k.
Proof.
  unfold fast_step, combined_step.
  rewrite !Z.square_spec, <- p_value.
  f_equal; rewrite fast_reduce_mod; apply reduce_proper;
    repeat setoid_rewrite fast_reduce_eqp; rewrite ?p_eqp_0; eqp_ring.
Qed.

Lemma fast_body_eq X n t s : fast_body X n t s = ladder_body X n t s.
Proof.
  unfold fast_body, ladder_body.
  destruct (cswap _ (x_2 s) (x_3 s)), (cswap _ (z_2 s) (z_3 s)).
  apply fast_step_eq.
Qed.

Lemma fast_pointMult_eq X n : pointMult X n = fast_pointMult X n.
Proof.
  unfold pointMult, fast_pointMult, ladder_run, for_down. rewrite bound_passes.
  f_equal. apply countdown_ext. intros; symmetry; apply fast_body_eq.
Qed.

(* ================================================================== *)
(** * The properties of the design document, settled on the code *)
(* ================================================================== *)

(** ** Known answers *)

(** The ladder on the printed scalar, evaluated. *)
Lemma vector_evaluated : affine (pointMult 9 vector_scalar) = Some vector_output.
Proof. rewrite fast_pointMult_eq. vm_cast_no_check (eq_refl (Some vector_output)). Qed.

(** The code agrees with RFC 7748 on the RFC's own first test vector. *)
Lemma rfc7748_vector :
  affine (pointMult rfc7748_u rfc7748_scalar) = Some rfc7748_output.
Proof. rewrite fast_pointMult_eq. vm_cast_no_check (eq_refl (Some rfc7748_output)). Qed.

(** C1, as stated, fails: for base point 9 and the printed scalar the
    recovered output is not the printed expected value. *)
Lemma C1_printed_vector_fails :
  affine (pointMult 9 vector_scalar) <> Some vector_expected.
Proof. rewrite vector_evaluated. intros H. injection H as H. discriminate H. Qed.

(** C1, amended: for base point X = 9 and the scalar
    0xa546e36bf0527c9d3b16154b82465edd62144c0ac1fc5a18506a2244ba449ac,
    [pointMult] followed by affine recovery yields the field element
    0x1e38e7905876ac1843f1f38bf9c6b7b2d4bf4f66e08bd54a6eca32567105cf76. *)
Theorem C1_test_vector :
  affine (pointMult 9 vector_scalar)
  = Some 0x1e38e7905876ac1843f1f38bf9c6b7b2d4bf4f66e08bd54a6eca32567105cf76.
Proof. exact vector_evaluated. Qed.

(** ** Identity *)

Lemma nine_element : field_element 9.
Proof. unfold field_element. rewrite p_value. unfold p_digits. lia. Qed.

Lemma nine_not_zero : ~ 9 == 0.
Proof. rewrite eqp_zero_iff, (Z.mod_small 9) by apply nine_element. discriminate. Qed.

(** Recovery of [pointMult X 1], for any integer [X] that is not a multiple
    of the prime. *)
Lemma pointMult_1_affine X :
  ~ z (pointMult X 1) == 0 -> affine (pointMult X 1) = Some (X mod field.p).
Proof.
  intros Hz. destruct (pointMult_1_represents X) as [Hx _].
  now apply X_of_cross.
Qed.

(** C2: for every field element [X] whose ratio [pointMult X 1] has [z] not
    congruent to 0 modulo p, affine recovery of [pointMult X 1] returns [X]
    itself; and [pointMult 9 1] recovers exactly to 9. *)
Theorem C2_identity X :
  field_element X -> z (pointMult X 1) mod field.p <> 0 ->
  affine (pointMult X 1) = Some X /\ affine (pointMult 9 1) = Some 9.
Proof.
  intros HX Hz. split.
  - rewrite pointMult_1_affine by now rewrite eqp_zero_iff.
    f_equal. now apply Z.mod_small.
  - rewrite pointMult_1_affine.
    + rewrite (Z.mod_small 9) by apply nine_element. reflexivity.
    + apply (pointMult_1_represents 9), nine_not_zero.
Qed.

Lemma C2_identity_witness :
  field_element 9 /\ z (pointMult 9 1) mod field.p <> 0 /\
  affine (pointMult 9 1) = Some 9.
Proof.
  pose proof nine_element as H9.
  assert (Hz : z (pointMult 9 1) mod field.p <> 0).
  { rewrite <- eqp_zero_iff. apply (pointMult_1_represents 9), nine_not_zero. }
  split; [exact H9 |]. split; [exact Hz |].
  exact (proj1 (C2_identity 9 H9 Hz)).
Defined.

(** ** Iteration count *)

(** C3, as stated, fails: the ladder does not run 255 combined steps. *)
Lemma C3_not_255_iterations : length (ladder_trace 9 1) <> 255%nat.
Proof.
  unfold ladder_trace. rewrite ladder_run_traced_eq. cbn [snd].
  rewrite length_map, length_seq. discriminate.
Qed.

(** C3, amended: for every scalar [n] (and every input [X]), the ladder in
    [pointMult] executes exactly 256 combined double-and-add steps, one per
    bit index from 255 (most significant) down to 0 (least significant), in
    that order, whatever the scalar's high bits are: the loop exits with 256
    passes of fuel or more and not with 255, and the instrumented run logs
    the indices 255, 254, ..., 0 while computing the same locals. *)
Theorem C3_iterations (F : field.ops) X n :
  (forall extra : nat,
      for_down_fuel (256 + extra) 255 (ladder_body X n) (ladder_init X)
      = Some (ladder_run X n))
  /\ for_down_fuel 255 255 (ladder_body X n) (ladder_init X) = None
  /\ ladder_run_traced X n
     = (ladder_run X n, map (fun i => 255 - Z.of_nat i) (seq 0 256))
  /\ length (ladder_trace X n) = 256%nat.
Proof.
  split; [intros extra; apply ladder_loop_terminates; lia |].
  split; [apply ladder_loop_needs_256 |].
  split; [apply ladder_run_traced_eq |].
  unfold ladder_trace. rewrite ladder_run_traced_eq. cbn [snd].
  now rewrite length_map, length_seq.
Qed.

(** ** Doubling *)

(** C4, as stated, fails: doubling [(1, 0)] gives [(1, 0)], not [(0, 0)]. *)
Lemma C4_double_infinity_not_zero : pointDouble 1 0 <> mkRatio 0 0.
Proof. vm_compute. discriminate. Qed.

(** C4, amended: for every [x0], [pointDouble x0 0] returns the ratio pair
    [(x0^4 mod p, 0)], a defined result with [z' = 0] rather than an error;
    its [x'] is 0 exactly when [x0] is congruent to 0 modulo p. *)
Theorem C4_double_infinity x0 :
  pointDouble x0 0 = mkRatio (x0 ^ 4 mod field.p) 0
  /\ (x (pointDouble x0 0) = 0 <-> x0 mod field.p = 0).
Proof.
  assert (E : pointDouble x0 0 = mkRatio (x0 ^ 4 mod field.p) 0).
  { unfold pointDouble. rewrite !reduce_mod. f_equal.
    - rewrite Z.mod_mod by auto. f_equal. ring.
    - rewrite Z.mul_0_r, Z.mod_0_l by auto. reflexivity. }
  split; [exact E |]. rewrite E. cbn [x]. rewrite <- !eqp_zero_iff. split.
  - intros H. destruct (Z.eq_dec (x0 mod field.p) 0) as [H0 | H0].
    + now apply eqp_zero_iff.
    + exfalso. rewrite <- eqp_zero_iff in H0.
      replace (x0 ^ 4) with (x0 * x0 * (x0 * x0)) in H by ring.
      revert H. apply mul_not_zero; now apply mul_not_zero.
  - intros H. replace (x0 ^ 4) with (x0 * (x0 * x0 * x0)) by ring.
    now apply mul_zero_l.
Qed.

(** C5: for every ratio [(x0, z0)] with [z0] not congruent to 0 modulo p
    whose double is not at infinity, the affine recovery of
    [pointDouble x0 z0] equals the affine recovery of
    [pointMult (X x0 z0) 2]; all three recoveries succeed. *)
Theorem C5_doubling_consistency x0 z0 :
  z0 mod field.p <> 0 -> z (pointDouble x0 z0) <> 0 ->
  exists u w, X x0 z0 = Some u
              /\ affine (pointDouble x0 z0) = Some w
              /\ affine (pointMult u 2) = Some w.
Proof.
  intros Hz0 Hz'. rewrite <- eqp_zero_iff in Hz0.
  assert (Hz'' : ~ z (pointDouble x0 z0) == 0).
  { rewrite eqp_zero_iff. unfold pointDouble in *. cbn [z] in *.
    rewrite reduce_mod in *. now rewrite Z.mod_mod by auto. }
  (* the affine coordinate of the input *)
  destruct (inverseOf_some z0 Hz0) as (i0 & Hi0 & Hzi0).
  set (u := field.reduce (x0 * i0)).
  assert (HX : X x0 z0 = Some u) by (unfold X; now rewrite Hi0).
  destruct (X_some _ _ _ HX) as (_ & _ & Hu). symmetry in Hu.
  assert (Hu0 : ~ u == 0).
  { intros H0. apply Hz''. unfold pointDouble. cbn [z].
    rewrite !reduce_eqp, Hu, H0. eqp_ring. }
  (* the recovery of the dedicated doubling *)
  destruct (inverseOf_some _ Hz'') as (i' & Hi' & Hzi').
  set (w := field.reduce (x (pointDouble x0 z0) * i')).
  assert (Hw : affine (pointDouble x0 z0) = Some w)
    by (unfold affine, X; now rewrite Hi').
  (* the ladder doubles a representative of u *)
  destruct (pointMult_2_doubles u) as (c & d & [Hc Hd] & HR).
  cbn [x z] in Hc, Hd. specialize (Hd Hu0).
  exists u, w. split; [exact HX |]. split; [exact Hw |].
  rewrite HR. unfold affine.
  replace w with (x (pointDouble x0 z0) * i' mod field.p) by reflexivity.
  apply X_of_cross.
  - (* the ladder's denominator is nonzero *)
    intros HzR.
    pose proof (double_denominators x0 z0 c d u Hu Hc) as Hden.
    rewrite HzR, Z.mul_0_l in Hden. symmetry in Hden. revert Hden.
    apply mul_not_zero; [exact Hz'' |].
    apply mul_not_zero; [| exact Hd].
    apply mul_not_zero; [| exact Hd].
    now apply mul_not_zero.
  - (* cross-multiplication, then division by the denominator *)
    pose proof (double_cross x0 z0 c d u Hu Hc) as Hcross.
    rewrite <- (Z.mul_1_r (x (ladder_double c d))), <- Hzi'.
    rewrite Z.mul_assoc, Hcross. eqp_ring.
Qed.

Lemma C5_doubling_consistency_witness :
  exists u w, X 9 1 = Some u
              /\ affine (pointDouble 9 1) = Some w
              /\ affine (pointMult u 2) = Some w.
Proof.
  apply (C5_doubling_consistency 9 1); vm_compute; discriminate.
Defined.

(** ** Degenerate ratios *)

(** C6: affine recovery of a ratio whose [z] reduces to 0 modulo p, and in
    particular of [(x0, 0)] for every [x0], raises an error and returns no
    field element. *)
Theorem C6_degenerate_rejected x0 z0 :
  z0 mod field.p = 0 -> X x0 z0 = None /\ X x0 0 = None.
Proof.
  intros Hz. split; apply X_none; [now apply eqp_zero_iff | reflexivity].
Qed.

Lemma C6_degenerate_rejected_witness :
  X 9 field.p = None /\ X 9 0 = None.
Proof. apply (C6_degenerate_rejected 9 field.p). reflexivity. Defined.

(** ** Structure of the ladder *)

(** C7: every pass of the loop of [pointMult] is the design's iteration
    (the swap flag XORed with the scalar bit, the conditional swap applied
    with that running value, the flag reset to the bit, then the combined
    step with [a24_mult = (A - 2) / 4]); the loop starts from the design's
    seed; [pointMult] returns what the design's ladder returns after its
    final conditional swap; and the constant of the combined step,
    [(486662 - 2) / 4 = 121665], differs from the one [pointDouble] uses,
    [(486662 + 2) / 4 = 121666]. *)
Theorem C7_ladder_structure (F : field.ops) X n :
  (forall t st,
      ladder_body X n t (locals_of st) = locals_of (Design.iteration X n st t))
  /\ ladder_init X = locals_of (Design.seed X)
  /\ pointMult X n = mkRatio (fst (Design.ladder X n)) (snd (Design.ladder X n))
  /\ multA24 = Design.a24_mult /\ Design.a24_mult = 121665
  /\ doubleA24 = Design.a24_double /\ Design.a24_double = 121666
  /\ multA24 <> doubleA24
  /\ (forall x0 z0,
         z (pointDouble x0 z0)
         = field.reduce (field.reduce (4 * x0 * z0)
                         * (field.reduce (x0 - z0) * field.reduce (x0 - z0)
                            + Design.a24_double * field.reduce (4 * x0 * z0)))).
Proof.
  split; [intros; apply iteration_refines |].
  split; [reflexivity |].
  split; [apply pointMult_refines |].
  repeat split; try reflexivity. discriminate.
Qed.

(** ** Scalars *)

(** C8: for every input [X], [pointMult X 0] returns exactly the ratio pair
    [(1, 0)], the seed of the even accumulator. *)
Theorem C8_scalar_zero X : pointMult X 0 = mkRatio 1 0.
Proof.
  unfold pointMult. destruct (ladder_run_0 X) as (H2 & Hz & Hsw & _).
  unfold ladder_finish. rewrite Hsw, H2, Hz. reflexivity.
Qed.

(** The ladder reads bits 0 to 255 of the scalar and nothing else. *)
Lemma pointMult_bits (F : field.ops) X n m :
  (forall t, 0 <= t < 256 -> Z.testbit n t = Z.testbit m t) ->
  pointMult X n = pointMult X m.
Proof.
  intros H. unfold pointMult, ladder_run, for_down. rewrite bound_passes.
  f_equal. apply countdown_ext. intros t Ht s.
  apply ladder_body_bit_ext, H. lia.
Qed.

(** C9: [pointMult] depends only on the low 256 bits of the scalar: for
    every [X] and every scalar [n] (non-negative or not),
    [pointMult X n = pointMult X (n mod 2^256)]. *)
Theorem C9_low_256_bits (F : field.ops) X n :
  pointMult X n = pointMult X (n mod 2 ^ 256).
Proof.
  apply pointMult_bits. intros t Ht. symmetry.
  apply Z.mod_pow2_bits_low. lia.
Qed.

(** ** Canonical outputs *)

(** C10: whenever the collaborator's [reduce] maps every integer into
    [[0, p)], both components of the ratio returned by [pointDouble], by
    [pointAdd1] and by [pointMult] lie in [[0, p)], for every input. *)
Theorem C10_canonical_outputs (F : field.ops) :
  (forall v, 0 <= field.reduce v < field.p) ->
  forall x0 z0 prevX prevZ X n,
    canonical (pointDouble x0 z0)
    /\ canonical (pointAdd1 x0 z0 prevX prevZ)
    /\ canonical (pointMult X n).
Proof.
  intros Hred x0 z0 prevX prevZ X n. unfold canonical.
  split; [| split].
  - unfold pointDouble. cbn [x z]. auto.
  - unfold pointAdd1. cbn [x z]. auto.
  - destruct (ladder_run_reduced X n) as (a & b & c & d & Ha & Hb & Hc & Hd).
    unfold pointMult, ladder_finish. cbn [x z].
    destruct (truthy _); cbn [cswap fst]; rewrite ?Ha, ?Hb, ?Hc, ?Hd; auto.
Qed.

Lemma C10_canonical_outputs_witness :
  canonical (pointDouble 9 1)
  /\ canonical (pointAdd1 9 1 1 0)
  /\ canonical (pointMult 9 1).
Proof.
  apply (C10_canonical_outputs field.Fp); intros v; apply reduce_range.
Defined.

(* ================================================================== *)
(** * Further properties of the code *)
(* ================================================================== *)

(** ** Field helpers *)

Lemma eqp_sub_zero a b : a - b == 0 -> a == b.
Proof.
  intros H. replace a with ((a - b) + b) by ring. rewrite H. reflexivity.
Qed.

Lemma eqp_dec a b : {a == b} + {~ a == b}.
Proof. unfold eqp. apply Z.eq_dec. Qed.

Lemma mul_zero_iff a b : a * b == 0 <-> a == 0 \/ b == 0.
Proof.
  split.
  - intros H. destruct (eqp_dec a 0) as [Ha | Ha]; [now left |].
    destruct (eqp_dec b 0) as [Hb | Hb]; [now right |].
    destruct (mul_not_zero a b Ha Hb H).
  - intros [H | H]; [now apply mul_zero_l | now apply mul_zero_r].
Qed.

(** Cancellation of a nonzero factor. *)
Lemma eqp_cancel c a b : ~ c == 0 -> c * a == c * b -> a == b.
Proof.
  intros Hc H. apply eqp_sub_zero.
  assert (H0 : c * (a - b) == 0).
  { replace (c * (a - b)) with (c * a - c * b) by ring. rewrite H.
    unfold eqp. f_equal. ring. }
  apply mul_zero_iff in H0 as [H0 | H0]; [contradiction | exact H0].
Qed.

(** Two sides that differ by a multiple of [m1 - m2] are congruent as soon
    as [m1] and [m2] are. *)
Lemma eqp_by_multiple a b k m1 m2 :
  m1 == m2 -> a - b = k * (m1 - m2) -> a == b.
Proof.
  intros Hm E. apply eqp_sub_zero. rewrite E, Hm.
  unfold eqp. f_equal. ring.
Qed.

Lemma reduce_zero v : v == 0 -> field.reduce v = 0.
Proof. intros H. rewrite reduce_mod. now apply eqp_zero_iff. Qed.

Lemma reduce_zero_iff v : field.reduce v = 0 <-> v == 0.
Proof. rewrite reduce_mod. symmetry. apply eqp_zero_iff. Qed.

(** ** Conditional swap *)

(** X1: [cswap] only permutes its two values: applying it twice with the
    same flag gives the pair back, negating the flag amounts to exchanging
    the arguments, and the two results always add up to [a + c]. *)
Theorem cswap_involutive (b : bool) (a c : Z) :
  cswap b (fst (cswap b a c)) (snd (cswap b a c)) = (a, c)
  /\ cswap (negb b) a c = cswap b c a
  /\ fst (cswap b a c) + snd (cswap b a c) = a + c.
Proof. destruct b; cbn; repeat split; ring. Qed.

(** ** Affine recovery *)

Lemma X_total x0 z0 : ~ z0 == 0 -> exists u, X x0 z0 = Some u.
Proof.
  intros Hz. destruct (inverseOf_some z0 Hz) as (i & Hi & _).
  exists (field.reduce (x0 * i)). unfold X. now rewrite Hi.
Qed.

Lemma X_spec x0 z0 u :
  X x0 z0 = Some u <-> ~ z0 == 0 /\ field_element u /\ u * z0 == x0.
Proof.
  split; [apply X_some |]. intros (Hz & Hu & Hx).
  rewrite (X_of_cross x0 z0 u) by (assumption || now symmetry).
  f_equal. now apply Z.mod_small.
Qed.

(** X2: affine recovery [X(x0, z0)] returns [u] exactly when [z0] is not
    congruent to 0, [u] is a canonical field element and [u * z0 = x0] in
    the field; in particular [X(u, 1)] is [u mod p]. *)
Theorem X_characterized x0 z0 u :
  (X x0 z0 = Some u <-> ~ z0 == 0 /\ field_element u /\ u * z0 == x0)
  /\ X u 1 = Some (u mod field.p).
Proof.
  split; [apply X_spec |].
  apply X_of_cross; [apply one_not_zero | now rewrite Z.mul_1_r].
Qed.

Lemma X_scale l x0 z0 : ~ l == 0 -> X (l * x0) (l * z0) = X x0 z0.
Proof.
  intros Hl. destruct (eqp_dec z0 0) as [Hz | Hz].
  - rewrite !X_none; trivial. now apply mul_zero_r.
  - destruct (X_total x0 z0 Hz) as [u Hu]. rewrite Hu.
    apply X_spec in Hu as (_ & Hfe & Hx).
    apply X_spec. split; [now apply mul_not_zero |].
    split; [assumption |]. rewrite <- Hx. unfold eqp. f_equal. ring.
Qed.

(** X3: multiplying both components of a ratio by the same factor, not
    congruent to 0, does not change what affine recovery returns (a value or
    an error). *)
Theorem X_scale_invariant l x0 z0 :
  ~ l == 0 -> X (l * x0) (l * z0) = X x0 z0.
Proof. intros Hl. now apply X_scale. Qed.

Lemma X_scale_invariant_witness : X (2 * 9) (2 * 1) = X 9 1.
Proof.
  apply (X_scale_invariant 2 9 1).
  rewrite eqp_zero_iff. vm_compute. discriminate.
Defined.

Lemma X_cross_iff x1 z1 x2 z2 :
  ~ z1 == 0 -> ~ z2 == 0 ->
  (X x1 z1 = X x2 z2 <-> x1 * z2 == x2 * z1).
Proof.
  intros H1 H2. destruct (X_total x1 z1 H1) as [u Hu].
  pose proof Hu as Hu'. apply X_spec in Hu' as (_ & Hfe & Hx1).
  rewrite Hu. split.
  - intros E. symmetry in E. apply X_spec in E as (_ & _ & Hx2).
    rewrite <- Hx1, <- Hx2. unfold eqp. f_equal. ring.
  - intros E. symmetry. apply X_spec.
    split; [assumption |]. split; [assumption |].
    apply (eqp_cancel z1); trivial.
    rewrite (Z.mul_comm z1 x2), <- E, <- Hx1. unfold eqp. f_equal. ring.
Qed.

(** X4: two ratios with denominators not congruent to 0 recover to the
    same affine value exactly when they agree after cross-multiplication. *)
Theorem X_equal_iff_cross x1 z1 x2 z2 :
  ~ z1 == 0 -> ~ z2 == 0 ->
  (X x1 z1 = X x2 z2 <-> x1 * z2 == x2 * z1).
Proof. intros H1 H2. now apply X_cross_iff. Qed.

Lemma X_equal_iff_cross_witness :
  X 18 2 = X 9 1 <-> 18 * 1 == 9 * 2.
Proof.
  apply (X_equal_iff_cross 18 2 9 1);
    rewrite eqp_zero_iff; vm_compute; discriminate.
Defined.

(** ** Point doubling *)

(** [pointDouble], one component at a time, in the field. *)
Lemma pointDouble_x x0 z0 :
  x (pointDouble x0 z0) == (x0 + z0) * (x0 + z0) * ((x0 - z0) * (x0 - z0)).
Proof. unfold pointDouble. cbn [x]. now rewrite !reduce_eqp. Qed.

Lemma pointDouble_z x0 z0 :
  z (pointDouble x0 z0)
  == 4 * x0 * z0 * (x0 * x0 + curveA * x0 * z0 + z0 * z0).
Proof.
  unfold pointDouble. cbn [z]. rewrite !reduce_eqp.
  change doubleA24 with 121666. change curveA with 486662. eqp_ring.
Qed.

Lemma pointDouble_x_reduced x0 z0 :
  x (pointDouble x0 z0) = field.reduce (x (pointDouble x0 z0)).
Proof.
  unfold pointDouble. cbn [x]. rewrite !reduce_mod.
  now rewrite !Z.mod_mod by auto.
Qed.

Lemma pointDouble_z_reduced x0 z0 :
  z (pointDouble x0 z0) = field.reduce (z (pointDouble x0 z0)).
Proof.
  unfold pointDouble. cbn [z]. rewrite !reduce_mod.
  now rewrite !Z.mod_mod by auto.
Qed.

(** Two calls whose components are congruent return the same record. *)
Lemma pointDouble_ext x0 z0 x1 z1 :
  x (pointDouble x0 z0) == x (pointDouble x1 z1) ->
  z (pointDouble x0 z0) == z (pointDouble x1 z1) ->
  pointDouble x0 z0 = pointDouble x1 z1.
Proof.
  intros Hx Hz.
  assert (Ex : x (pointDouble x0 z0) = x (pointDouble x1 z1)).
  { rewrite pointDouble_x_reduced, (pointDouble_x_reduced x1). exact Hx. }
  assert (Ez : z (pointDouble x0 z0) = z (pointDouble x1 z1)).
  { rewrite pointDouble_z_reduced, (pointDouble_z_reduced x1). exact Hz. }
  destruct (pointDouble x0 z0), (pointDouble x1 z1). cbn in Ex, Ez.
  now subst.
Qed.

(** X7: [pointDouble] returns the same pair when [x] and [z] are
    exchanged: a point and its translate by the 2-torsion point [(0, 0)],
    whose X-coordinate is the inverse, have the same double. *)
Theorem pointDouble_symmetric x0 z0 : pointDouble x0 z0 = pointDouble z0 x0.
Proof.
  apply pointDouble_ext.
  - rewrite !pointDouble_x. eqp_ring.
  - rewrite !pointDouble_z. eqp_ring.
Qed.

(** X6: [pointDouble] is homogeneous of degree 4: multiplying both inputs
    by [l] multiplies both outputs by [l^4] in the field, so the point
    returned does not depend on the representative of the ratio. *)
Theorem pointDouble_homogeneous l x0 z0 :
  x (pointDouble (l * x0) (l * z0))
  = field.reduce (l * l * l * l * x (pointDouble x0 z0))
  /\ z (pointDouble (l * x0) (l * z0))
     = field.reduce (l * l * l * l * z (pointDouble x0 z0)).
Proof.
  split.
  - rewrite pointDouble_x_reduced. apply reduce_proper.
    rewrite !pointDouble_x. eqp_ring.
  - rewrite pointDouble_z_reduced. apply reduce_proper.
    rewrite !pointDouble_z. eqp_ring.
Qed.

(** The dedicated doubling and the doubling half of the ladder's combined
    step return the same pair. *)
Lemma pointDouble_ladder_double a b : pointDouble a b = ladder_double a b.
Proof.
  assert (Ex : x (pointDouble a b) = x (ladder_double a b)).
  { rewrite pointDouble_x_reduced. unfold ladder_double, combined_step.
    cbn [x x_2]. apply reduce_proper. apply pointDouble_x. }
  assert (Ez : z (pointDouble a b) = z (ladder_double a b)).
  { rewrite pointDouble_z_reduced. unfold ladder_double, combined_step.
    cbn [z z_2]. apply reduce_proper. rewrite pointDouble_z.
    change multA24 with 121665. change curveA with 486662. eqp_ring. }
  destruct (pointDouble a b), (ladder_double a b). cbn in Ex, Ez. now subst.
Qed.

(** X10: whatever the locals, the pair a pass of the loop of [pointMult]
    leaves in [(x_2, z_2)] is [pointDouble] of the accumulator that the
    conditional swap put there: [(x_3, z_3)] if the pending swap and the
    scalar bit differ, [(x_2, z_2)] otherwise.  The two constants
    [(A-2)/4] and [(A+2)/4] are used consistently. *)
Theorem ladder_pass_doubles X n t a b c d (sw : bool) :
  let s := ladder_body X n t (mkLadder a b c d (Z.b2z sw)) in
  mkRatio (x_2 s) (z_2 s)
  = if xorb sw (Z.testbit n t) then pointDouble c d else pointDouble a b.
Proof.
  cbn zeta. rewrite (ladder_body_cases X n t _ sw) by reflexivity.
  rewrite !pointDouble_ladder_double.
  destruct (xorb sw (Z.testbit n t)); reflexivity.
Qed.

(** X8: [pointDouble] is the doubling of the Montgomery curve
    [y^2 = x^3 + A x^2 + x] with [A = curveA]: whenever the input recovers
    to [u] and the output to [w], [w * 4u(u^2 + A u + 1) = (u^2 - 1)^2] in
    the field. *)
Theorem pointDouble_affine_law x0 z0 u w :
  X x0 z0 = Some u -> affine (pointDouble x0 z0) = Some w ->
  w * (4 * u * (u * u + curveA * u + 1)) == (u * u - 1) * (u * u - 1).
Proof.
  intros Hu Hw. apply X_spec in Hu as (Hz0 & _ & Hx0).
  apply X_spec in Hw as (_ & _ & Hw).
  rewrite pointDouble_x, pointDouble_z in Hw.
  apply (eqp_cancel (z0 * z0 * z0 * z0)).
  { repeat apply mul_not_zero; assumption. }
  rewrite <- Hx0 in Hw.
  transitivity (w * (4 * (u * z0) * z0
                     * (u * z0 * (u * z0) + curveA * (u * z0) * z0 + z0 * z0)));
    [eqp_ring |].
  rewrite Hw. eqp_ring.
Qed.

Lemma pointDouble_z_zero_iff x0 z0 :
  z (pointDouble x0 z0) = 0
  <-> x0 == 0 \/ z0 == 0 \/ x0 * x0 + curveA * x0 * z0 + z0 * z0 == 0.
Proof.
  rewrite pointDouble_z_reduced, reduce_zero_iff, pointDouble_z.
  rewrite !mul_zero_iff. split.
  - intros [[[H | H] | H] | H]; auto. destruct (four_not_zero H).
  - intros [H | [H | H]]; auto.
Qed.

(** X9: [pointDouble] returns [z' = 0] (the point at infinity, on which
    affine recovery fails) exactly when [x] or [z] is congruent to 0 or
    [x^2 + A x z + z^2] is. *)
Theorem pointDouble_infinity_iff x0 z0 :
  (z (pointDouble x0 z0) = 0
   <-> x0 == 0 \/ z0 == 0 \/ x0 * x0 + curveA * x0 * z0 + z0 * z0 == 0)
  /\ (z (pointDouble x0 z0) = 0 -> affine (pointDouble x0 z0) = None).
Proof.
  split; [apply pointDouble_z_zero_iff |].
  intros H. unfold affine. apply X_none. now rewrite H.
Qed.

Lemma pointDouble_affine_law_witness :
  exists w,
    affine (pointDouble 9 1) = Some w
    /\ w * (4 * 9 * (9 * 9 + curveA * 9 + 1)) == (9 * 9 - 1) * (9 * 9 - 1).
Proof.
  eexists. split; [vm_compute; reflexivity |].
  apply (pointDouble_affine_law 9 1 9); vm_compute; reflexivity.
Defined.

(** ** Differential addition *)

Lemma square_eqp v : field.square v == v * v.
Proof. apply mod_eqp. Qed.

Ltac strip_field :=
  repeat (first [setoid_rewrite reduce_eqp | setoid_rewrite square_eqp]).

(** [pointAdd1], one component at a time, in the field. *)
Lemma pointAdd1_x x0 z0 pX pZ :
  x (pointAdd1 x0 z0 pX pZ)
  == pZ * (((x0 - z0) * (basePointX + 1) + (x0 + z0) * (basePointX - 1))
           * ((x0 - z0) * (basePointX + 1) + (x0 + z0) * (basePointX - 1))).
Proof. unfold pointAdd1. cbn [x]. strip_field. reflexivity. Qed.

Lemma pointAdd1_z x0 z0 pX pZ :
  z (pointAdd1 x0 z0 pX pZ)
  == pX * (((x0 - z0) * (basePointX + 1) - (x0 + z0) * (basePointX - 1))
           * ((x0 - z0) * (basePointX + 1) - (x0 + z0) * (basePointX - 1))).
Proof. unfold pointAdd1. cbn [z]. strip_field. reflexivity. Qed.

Lemma pointAdd1_x_reduced x0 z0 pX pZ :
  x (pointAdd1 x0 z0 pX pZ) = field.reduce (x (pointAdd1 x0 z0 pX pZ)).
Proof.
  unfold pointAdd1. cbn [x]. rewrite !reduce_mod.
  now rewrite !Z.mod_mod by auto.
Qed.

Lemma pointAdd1_z_reduced x0 z0 pX pZ :
  z (pointAdd1 x0 z0 pX pZ) = field.reduce (z (pointAdd1 x0 z0 pX pZ)).
Proof.
  unfold pointAdd1. cbn [z]. rewrite !reduce_mod.
  now rewrite !Z.mod_mod by auto.
Qed.

Lemma ratio_eq (r1 r2 : ratio) : x r1 = x r2 -> z r1 = z r2 -> r1 = r2.
Proof. destruct r1, r2. cbn. now intros -> ->. Qed.

(** X5: [pointDouble] and [pointAdd1] depend on their inputs only modulo
    p: unreduced (also negative) inputs give the same record as their
    canonical representatives. *)
Theorem inputs_modulo_p x0 z0 pX pZ :
  pointDouble (x0 mod field.p) (z0 mod field.p) = pointDouble x0 z0
  /\ pointAdd1 (x0 mod field.p) (z0 mod field.p)
               (pX mod field.p) (pZ mod field.p)
     = pointAdd1 x0 z0 pX pZ.
Proof.
  split.
  - apply pointDouble_ext.
    + rewrite !pointDouble_x, !mod_eqp. reflexivity.
    + rewrite !pointDouble_z, !mod_eqp. reflexivity.
  - apply ratio_eq.
    + rewrite pointAdd1_x_reduced, (pointAdd1_x_reduced x0).
      apply reduce_proper. rewrite !pointAdd1_x, !mod_eqp. reflexivity.
    + rewrite pointAdd1_z_reduced, (pointAdd1_z_reduced x0).
      apply reduce_proper. rewrite !pointAdd1_z, !mod_eqp. reflexivity.
Qed.

(** X12: [pointAdd1] is homogeneous: multiplying the current ratio by [l]
    and the previous ratio by [m] multiplies both outputs by [l^2 m] in the
    field, so the point returned does not depend on the representatives. *)
Theorem pointAdd1_homogeneous l m x0 z0 pX pZ :
  x (pointAdd1 (l * x0) (l * z0) (m * pX) (m * pZ))
  = field.reduce (l * l * m * x (pointAdd1 x0 z0 pX pZ))
  /\ z (pointAdd1 (l * x0) (l * z0) (m * pX) (m * pZ))
     = field.reduce (l * l * m * z (pointAdd1 x0 z0 pX pZ)).
Proof.
  split.
  - rewrite pointAdd1_x_reduced. apply reduce_proper.
    rewrite !pointAdd1_x. eqp_ring.
  - rewrite pointAdd1_z_reduced. apply reduce_proper.
    rewrite !pointAdd1_z. eqp_ring.
Qed.

(** X13: when the current ratio is the base point itself
    ([x = 9 z] in the field), [pointAdd1] returns [z = 0] whatever the
    previous ratio: the differential formula cannot add the base point to
    itself. *)
Theorem pointAdd1_of_base_degenerate x0 z0 pX pZ :
  x0 == basePointX * z0 -> z (pointAdd1 x0 z0 pX pZ) = 0.
Proof.
  intros H. rewrite pointAdd1_z_reduced. apply reduce_zero.
  rewrite pointAdd1_z, H. change basePointX with 9.
  transitivity (pX * 0); [eqp_ring | now rewrite Z.mul_0_r].
Qed.

Lemma pointAdd1_of_base_degenerate_witness : z (pointAdd1 9 1 9 1) = 0.
Proof. apply (pointAdd1_of_base_degenerate 9 1 9 1). reflexivity. Defined.

(** X11: [pointAdd1 x z prevX 1] is what a pass of the loop of
    [pointMult prevX] leaves in [(x_3, z_3)] when it finds the base point
    [(9, 1)] in [(x_2, z_2)] and [(x, z)] in [(x_3, z_3)] and does not
    exchange them: the standalone differential addition and the addition
    half of the combined step are the same computation. *)
Theorem ladder_pass_adds prevX n t x0 z0 :
  let s := ladder_body prevX n t
             (mkLadder basePointX 1 x0 z0 (Z.b2z (Z.testbit n t))) in
  mkRatio (x_3 s) (z_3 s) = pointAdd1 x0 z0 prevX 1.
Proof.
  cbn zeta. rewrite (ladder_body_cases prevX n t _ (Z.testbit n t)) by reflexivity.
  rewrite xorb_nilpotent. cbn [x_2 z_2 x_3 z_3 combined_step].
  apply ratio_eq; cbn [x z].
  - rewrite pointAdd1_x_reduced. apply reduce_proper.
    rewrite pointAdd1_x. eqp_ring.
  - rewrite pointAdd1_z_reduced. apply reduce_proper.
    rewrite pointAdd1_z. eqp_ring.
Qed.

(** ** More on loops *)

Section LoopFacts2.
Context {St : Type}.
Implicit Types (body : Z -> St -> St) (s : St).

(** The last pass of the loop, peeled off. *)
Lemma countdown_shift body : forall k s,
  countdown (S k) body s = body 0 (countdown k (fun t => body (t + 1)) s).
Proof.
  induction k as [| k IH]; intros s; [reflexivity |].
  rewrite countdown_S, IH, (countdown_S (fun t => body (t + 1))).
  now rewrite Nat2Z.inj_succ.
Qed.

(** A relation kept by the body is kept by the loop. *)
Lemma countdown_related (R : St -> St -> Prop) body : forall k s s',
  (forall t a a', R a a' -> R (body t a) (body t a')) ->
  R s s' -> R (countdown k body s) (countdown k body s').
Proof.
  induction k as [| k IH]; intros s s' Hb Hs; [exact Hs |].
  rewrite !countdown_S. apply IH; auto.
Qed.

End LoopFacts2.

(** ** The ladder: swap flag, unreduced and degenerate inputs *)

Lemma ladder_body_swap (F : field.ops) X n t s :
  swap (ladder_body X n t s) = Z.b2z (Z.testbit n t).
Proof.
  unfold ladder_body.
  destruct (cswap _ (x_2 s) (x_3 s)), (cswap _ (z_2 s) (z_3 s)).
  cbn [swap]. now rewrite bit_of_scalar, flag_b2z.
Qed.

(** The locals at loop exit are those of a pass at bit index 0. *)
Lemma ladder_run_last_pass (F : field.ops) X n :
  ladder_run X n
  = ladder_body X n 0
      (countdown 255 (fun t => ladder_body X n (t + 1)) (ladder_init X)).
Proof.
  unfold ladder_run, for_down. rewrite bound_passes. apply countdown_shift.
Qed.

(** X15: at loop exit the swap flag is the lowest scalar bit, so the final
    conditional swap returns [(x_3, z_3)] for an odd scalar and
    [(x_2, z_2)] for an even one. *)
Theorem final_swap_parity (F : field.ops) X n :
  swap (ladder_run X n) = Z.b2z (Z.odd n)
  /\ pointMult X n
     = if Z.odd n
       then mkRatio (x_3 (ladder_run X n)) (z_3 (ladder_run X n))
       else mkRatio (x_2 (ladder_run X n)) (z_2 (ladder_run X n)).
Proof.
  assert (E : swap (ladder_run X n) = Z.b2z (Z.odd n)).
  { rewrite ladder_run_last_pass, ladder_body_swap. now rewrite Z.bit0_odd. }
  split; [exact E |]. unfold pointMult, ladder_finish. rewrite E, truthy_b2z.
  now destruct (Z.odd n).
Qed.

(** Congruent locals and congruent inputs give the same locals after a
    pass. *)
Lemma ladder_body_congruent X X' n t s s' :
  X == X' -> x_2 s == x_2 s' -> z_2 s == z_2 s' ->
  x_3 s == x_3 s' -> z_3 s == z_3 s' -> swap s = swap s' ->
  ladder_body X n t s = ladder_body X' n t s'.
Proof.
  destruct s as [a b c d k], s' as [a' b' c' d' k'].
  cbn [x_2 z_2 x_3 z_3 swap]. intros HX Ha Hb Hc Hd <-.
  unfold ladder_body. cbn [x_2 z_2 x_3 z_3 swap].
  destruct (truthy _); cbn [cswap]; f_equal; apply reduce_proper;
    rewrite ?HX, ?Ha, ?Hb, ?Hc, ?Hd; reflexivity.
Qed.

(** X16: [pointMult] depends on its input coordinate only modulo p. *)
Theorem pointMult_input_modulo_p X n :
  pointMult (X mod field.p) n = pointMult X n.
Proof.
  unfold pointMult, ladder_run, for_down. rewrite bound_passes.
  rewrite (countdown_S (ladder_body X n) 255).
  rewrite (countdown_S (ladder_body (X mod field.p) n) 255). f_equal.
  rewrite (ladder_body_congruent (X mod field.p) X n _
             (ladder_init (X mod field.p)) (ladder_init X));
    try reflexivity; try apply mod_eqp.
  apply countdown_ext. intros t _ s.
  apply ladder_body_congruent; try reflexivity. apply mod_eqp.
Qed.

(** With [X] congruent to 0, a pass leaves [z_2 = z_3 = 0] as soon as each
    accumulator had a zero component. *)
Lemma zero_input_pass X n t s :
  X == 0 -> x_2 s * z_2 s == 0 -> x_3 s * z_3 s == 0 ->
  z_2 (ladder_body X n t s) = 0 /\ z_3 (ladder_body X n t s) = 0.
Proof.
  destruct s as [a b c d k]. cbn [x_2 z_2 x_3 z_3]. intros HX H2 H3.
  unfold ladder_body. cbn [x_2 z_2 x_3 z_3 swap].
  destruct (truthy _); cbn [cswap z_2 z_3]; split; apply reduce_zero.
  - transitivity (4 * (c * d) * ((c + d) * (c + d) + multA24 * (4 * (c * d))));
      [eqp_ring | rewrite H3; eqp_ring].
  - rewrite HX. eqp_ring.
  - transitivity (4 * (a * b) * ((a + b) * (a + b) + multA24 * (4 * (a * b))));
      [eqp_ring | rewrite H2; eqp_ring].
  - rewrite HX. eqp_ring.
Qed.

Lemma zero_input_run X n :
  X == 0 -> z_2 (ladder_run X n) = 0 /\ z_3 (ladder_run X n) = 0.
Proof.
  intros HX. rewrite ladder_run_last_pass.
  assert (H : x_2 (countdown 255 (fun t => ladder_body X n (t + 1)) (ladder_init X))
              * z_2 (countdown 255 (fun t => ladder_body X n (t + 1)) (ladder_init X)) == 0
              /\ x_3 (countdown 255 (fun t => ladder_body X n (t + 1)) (ladder_init X))
                 * z_3 (countdown 255 (fun t => ladder_body X n (t + 1)) (ladder_init X)) == 0).
  { apply (countdown_invariant
             (fun s => x_2 s * z_2 s == 0 /\ x_3 s * z_3 s == 0)).
    - intros t s [H2 H3].
      destruct (zero_input_pass X n (t + 1) s HX H2 H3) as [-> ->].
      now rewrite !Z.mul_0_r.
    - cbn [ladder_init x_2 z_2 x_3 z_3]. rewrite Z.mul_1_r. now split. }
  destruct H as [H2 H3]. now apply zero_input_pass.
Qed.

Lemma zero_input_result X n :
  X == 0 -> z (pointMult X n) = 0 /\ affine (pointMult X n) = None.
Proof.
  intros HX.
  destruct (zero_input_run X n HX) as [H2 H3].
  assert (Hz : z (pointMult X n) = 0).
  { unfold pointMult, ladder_finish. cbn [z].
    destruct (truthy _); cbn [cswap fst]; assumption. }
  split; [exact Hz |]. unfold affine. apply X_none. now rewrite Hz.
Qed.

(** X17: for an input coordinate congruent to 0 (the point of order 2),
    [pointMult] returns [z = 0] for every scalar, and affine recovery of
    the result fails. *)
Theorem pointMult_zero_input X n :
  X mod field.p = 0 ->
  z (pointMult X n) = 0 /\ affine (pointMult X n) = None.
Proof. intros HX. apply zero_input_result. now apply eqp_zero_iff. Qed.

Lemma pointMult_zero_input_witness :
  z (pointMult field.p 5) = 0 /\ affine (pointMult field.p 5) = None.
Proof. apply (pointMult_zero_input field.p 5). reflexivity. Defined.

(** X18: for every integer input [X], affine recovery of [pointMult X 1]
    fails when [X] is congruent to 0 and returns [X mod p] otherwise. *)
Theorem pointMult_1_total X :
  affine (pointMult X 1)
  = if X mod field.p =? 0 then None else Some (X mod field.p).
Proof.
  destruct (Z.eqb_spec (X mod field.p) 0) as [H | H].
  - apply zero_input_result. now apply eqp_zero_iff.
  - apply pointMult_1_affine. apply (pointMult_1_represents X).
    now rewrite eqp_zero_iff.
Qed.

(** X19: a scalar that is a multiple of [2^256] behaves as 0: [pointMult]
    returns the seed [(1, 0)]. *)
Theorem pointMult_multiple_of_2_256 X k :
  pointMult X (k * 2 ^ 256) = mkRatio 1 0.
Proof.
  rewrite (pointMult_bits _ X (k * 2 ^ 256) 0).
  - unfold pointMult. destruct (ladder_run_0 X) as (H2 & Hz & Hsw & _).
    unfold ladder_finish. rewrite Hsw, H2, Hz. reflexivity.
  - intros t Ht. rewrite Z.testbit_0_l. apply Z.mul_pow2_bits_low. lia.
Qed.

(** ** Doubling the scalar doubles the point *)

(** Congruent ratios recover alike. *)
Lemma X_congruent x1 z1 x2 z2 :
  x1 == x2 -> z1 == z2 -> X x1 z1 = X x2 z2.
Proof.
  intros Hx Hz. destruct (eqp_dec z1 0) as [H | H].
  - rewrite !X_none; trivial. now rewrite <- Hz.
  - apply X_cross_iff; trivial; [now rewrite <- Hz |].
    rewrite Hx, Hz. reflexivity.
Qed.

Lemma scaled_affine l r r' :
  ~ l == 0 -> scaled l r r' -> affine r' = affine r.
Proof.
  intros Hl [Hx Hz]. unfold affine.
  rewrite (X_congruent _ _ _ _ Hx Hz). now apply X_scale.
Qed.

(** The combined step on rescaled accumulators. *)
Lemma combined_step_rescaled X l m a b c d a' b' c' d' k :
  a' == l * a -> b' == l * b -> c' == m * c -> d' == m * d ->
  rescaled (l * l * l * l) (l * l * (m * m))
    (combined_step X a b c d k) (combined_step X a' b' c' d' k).
Proof.
  intros Ha Hb Hc Hd. unfold rescaled, scaled, combined_step.
  cbn [x z x_2 z_2 x_3 z_3 swap]. rewrite !reduce_eqp, Ha, Hb, Hc, Hd.
  repeat split; eqp_ring.
Qed.

Lemma ladder_body_similar X n t s s' :
  similar s s' -> similar (ladder_body X n t s) (ladder_body X n t s').
Proof.
  intros [[sw Hsw] (l & m & Hl & Hm & [Hx2 Hz2] & [Hx3 Hz3] & Hswap)].
  cbn [x z] in *. split.
  { exists (Z.testbit n t). apply ladder_body_swap. }
  rewrite (ladder_body_cases X n t s sw) by assumption.
  rewrite (ladder_body_cases X n t s' sw) by congruence.
  destruct (xorb sw (Z.testbit n t)).
  - exists (m * m * m * m), (m * m * (l * l)).
    split; [now repeat apply mul_not_zero |].
    split; [now repeat apply mul_not_zero |].
    now apply combined_step_rescaled.
  - exists (l * l * l * l), (l * l * (m * m)).
    split; [now repeat apply mul_not_zero |].
    split; [now repeat apply mul_not_zero |].
    now apply combined_step_rescaled.
Qed.

(** A pass on a zero bit from the initial locals only rescales them. *)
Lemma first_zero_pass_similar X n t :
  ~ X == 0 -> Z.testbit n t = false ->
  similar (ladder_init X) (ladder_body X n t (ladder_init X)).
Proof.
  intros HX Hbit. split; [now exists false |].
  exists 1, (4 * X). split; [apply one_not_zero |].
  split; [now apply mul_not_zero; [apply four_not_zero |] |].
  rewrite (ladder_body_cases X n t _ false) by reflexivity.
  rewrite Hbit. cbn [xorb Z.b2z]. unfold rescaled, scaled, ladder_init.
  cbn [combined_step x z x_2 z_2 x_3 z_3 swap]. rewrite !reduce_eqp.
  repeat split; eqp_ring.
Qed.

(** A last pass on a zero bit returns the double of what the locals before
    it would have returned. *)
Lemma last_pass_even X n t s (sw : bool) :
  swap s = Z.b2z sw -> Z.testbit n t = false ->
  ladder_finish (ladder_body X n t s)
  = pointDouble (x (ladder_finish s)) (z (ladder_finish s)).
Proof.
  intros Hsw Hbit. rewrite pointDouble_ladder_double.
  rewrite (ladder_body_cases X n t s sw) by assumption.
  rewrite Hbit, xorb_false_r. unfold ladder_finish at 2 3.
  rewrite Hsw, truthy_b2z. cbn [Z.b2z].
  destruct sw; reflexivity.
Qed.

Lemma finish_similar s s' :
  similar s s' ->
  exists l, ~ l == 0 /\ scaled l (ladder_finish s) (ladder_finish s').
Proof.
  intros [[sw Hsw] (l & m & Hl & Hm & H2 & H3 & Hswap)].
  unfold ladder_finish. rewrite Hswap, Hsw, truthy_b2z.
  destruct sw; cbn [cswap fst]; [exists m | exists l]; now split.
Qed.

(** X20: for every input [X] and every scalar [0 <= n < 2^255], the ladder
    on [2 n] and [pointDouble] applied to the ladder's result on [n] recover
    to the same affine value (or both fail): doubling the scalar doubles the
    point. *)
Theorem scalar_doubling X n :
  0 <= n < 2 ^ 255 ->
  affine (pointMult X (2 * n))
  = affine (pointDouble (x (pointMult X n)) (z (pointMult X n))).
Proof.
  intros Hn.
  assert (Hbit : Z.testbit n 255 = false).
  { destruct (Z.eq_dec n 0) as [-> | Hn0]; [apply Z.testbit_0_l |].
    apply Z.bits_above_log2; [lia |]. apply Z.log2_lt_pow2; lia. }
  destruct (eqp_dec X 0) as [HX | HX].
  { (* degenerate input: both recoveries fail *)
    destruct (zero_input_result X (2 * n) HX) as [_ ->].
    destruct (zero_input_result X n HX) as [Hz _].
    symmetry. apply X_none, eqp_zero_iff.
    change (z (pointDouble (x (pointMult X n)) (z (pointMult X n)))
            mod field.p = 0).
    assert (E : z (pointDouble (x (pointMult X n)) (z (pointMult X n))) = 0).
    { apply pointDouble_z_zero_iff. right; left. now rewrite Hz. }
    now rewrite E. }
  set (T := countdown 255 (ladder_body X n) (ladder_init X)).
  assert (E2 : pointMult X (2 * n)
               = pointDouble (x (ladder_finish T)) (z (ladder_finish T))).
  { unfold pointMult. rewrite ladder_run_last_pass.
    rewrite (countdown_ext _ (ladder_body X n)).
    - fold T.
      assert (HT : exists sw : bool, swap T = Z.b2z sw).
      { apply (countdown_invariant (fun s => exists sw : bool, swap s = Z.b2z sw)).
        - intros t s _. exists (Z.testbit n t). apply ladder_body_swap.
        - now exists false. }
      destruct HT as [sw Hsw]. apply (last_pass_even X (2 * n) 0 T sw Hsw).
      apply Z.testbit_even_0.
    - intros t Ht s. apply ladder_body_bit_ext.
      rewrite Z.add_1_r. apply Z.double_bits_succ. }
  set (U := countdown 255 (ladder_body X n)
              (ladder_body X n 255 (ladder_init X))).
  assert (E1 : pointMult X n = ladder_finish U).
  { unfold pointMult, ladder_run, for_down. rewrite bound_passes.
    rewrite (countdown_S (ladder_body X n) 255). reflexivity. }
  assert (Hsim : similar T U).
  { apply countdown_related.
    - intros; now apply ladder_body_similar.
    - now apply first_zero_pass_similar. }
  destruct (finish_similar _ _ Hsim) as (l & Hl & [Hx Hz]).
  rewrite E2, E1. clearbody T U.
  destruct (ladder_finish T) as [a b], (ladder_finish U) as [a' b'].
  cbn [x z] in *. symmetry.
  apply (scaled_affine (l * l * l * l)); [now repeat apply mul_not_zero |].
  split.
  - rewrite !pointDouble_x, Hx, Hz. eqp_ring.
  - rewrite !pointDouble_z, Hx, Hz. eqp_ring.
Qed.

Lemma scalar_doubling_witness :
  affine (pointMult 9 (2 * 3))
  = affine (pointDouble (x (pointMult 9 3)) (z (pointMult 9 3))).
Proof. apply (scalar_doubling 9 3). split; [lia | reflexivity]. Defined.

(** ** Differential addition after doubling: three times the base point *)

(** The ladder on the scalar 3: from a representative [(a, b)] of [X], one
    pass that doubles it and keeps a second representative, then one pass
    whose addition half is returned. *)
Lemma pointMult_3_adds X :
  exists a b,
    represents (mkRatio a b) X /\
    pointMult X 3
    = let s1 := combined_step X a b 1 0 1 in
      let s2 := combined_step X (x_2 s1) (z_2 s1) (x_3 s1) (z_3 s1) 1 in
      mkRatio (x_3 s2) (z_3 s2).
Proof.
  unfold pointMult, ladder_run, for_down. rewrite bound_passes.
  destruct (zero_phase_run X 3 2 256 (ladder_init X)) as (s & Hs & ->);
    auto using zero_phase_init; [lia | intros; apply testbit_above; cbn; lia |].
  destruct s as [a2 b2 a b sw]. destruct Hs as (Hx2 & Hz2 & Hsw & Hrep).
  cbn [x_2 z_2 x_3 z_3 swap] in *. subst a2 b2 sw.
  rewrite !countdown_S. cbn [countdown Z.of_nat Pos.of_succ_nat].
  rewrite (ladder_body_cases X 3 1 _ false) by reflexivity.
  change (Z.testbit 3 1) with true. cbn [xorb x_2 z_2 x_3 z_3 Z.b2z].
  rewrite (ladder_body_cases X 3 0 _ true) by reflexivity.
  change (Z.testbit 3 0) with true. cbn [xorb Z.b2z].
  exists a, b. split; [exact Hrep |]. reflexivity.
Qed.

Lemma triple_cross x0 z0 :
  x0 == basePointX * z0 ->
  same_point
    (pointAdd1 (x (pointDouble x0 z0)) (z (pointDouble x0 z0)) x0 z0)
    (pointMult basePointX 3).
Proof.
  intros Hx0. destruct (pointMult_3_adds basePointX) as (a & b & Hrep & ->).
  pose proof (add_seed_represents basePointX a b 1 Hrep) as [Hc _].
  destruct Hrep as [Hab _]. cbn [x z] in Hab, Hc.
  pose proof (double_cross x0 z0 a b basePointX Hx0 Hab) as Hm.
  cbn zeta. set (s1 := combined_step basePointX a b 1 0 1) in *.
  change (x (ladder_double a b)) with (x_2 s1) in Hm.
  change (z (ladder_double a b)) with (z_2 s1) in Hm.
  unfold same_point. cbn [x z combined_step x_3 z_3].
  rewrite pointAdd1_x, pointAdd1_z, !reduce_eqp.
  generalize dependent (x_3 s1). generalize dependent (z_3 s1).
  generalize dependent (x_2 s1). generalize dependent (z_2 s1).
  generalize dependent (x (pointDouble x0 z0)).
  generalize dependent (z (pointDouble x0 z0)).
  clear s1 Hab a b. intros Dz Dx dz dx Hm d c Hc.
  rewrite Hc, Hx0. change basePointX with 9.
  apply (eqp_by_multiple _ _
           (-2880 * z0 * (d * d)
            * ((18 * Dx - 2 * Dz) * (18 * dz - 2 * dx)
               - (18 * dx - 2 * dz) * (2 * Dx - 18 * Dz)))
           (dx * Dz) (Dx * dz) Hm).
  ring.
Qed.

(** X14: for every representative [(x0, z0)] of the base point,
    [pointAdd1] applied to [pointDouble x0 z0] with [(x0, z0)] as the
    previous point names the same point as the ladder on the scalar 3
    (they agree after cross-multiplication), and when both denominators are
    not congruent to 0 they recover to the same affine value. *)
Theorem pointAdd1_after_pointDouble_triples x0 z0 :
  x0 == basePointX * z0 ->
  let T := pointAdd1 (x (pointDouble x0 z0)) (z (pointDouble x0 z0)) x0 z0 in
  same_point T (pointMult basePointX 3)
  /\ (~ z T == 0 -> ~ z (pointMult basePointX 3) == 0 ->
      affine T = affine (pointMult basePointX 3)).
Proof.
  intros Hx0 T. pose proof (triple_cross x0 z0 Hx0) as H. fold T in H.
  split; [exact H |]. intros HT HR. unfold affine.
  now apply X_cross_iff.
Qed.

Lemma pointAdd1_after_pointDouble_triples_witness :
  let T := pointAdd1 (x (pointDouble 9 1)) (z (pointDouble 9 1)) 9 1 in
  same_point T (pointMult basePointX 3)
  /\ (~ z T == 0 -> ~ z (pointMult basePointX 3) == 0 ->
      affine T = affine (pointMult basePointX 3)).
Proof. apply (pointAdd1_after_pointDouble_triples 9 1). reflexivity. Defined.
